(** * Text normalisation, chunking and chunk identity of the ingestion pipeline

    A shallow embedding of [data-ingestion/ingest.py]: [clean_text],
    [chunk_text], [create_embedding], [generate_chunk_id] and
    [upsert_to_pinecone], together with the parts of the Python runtime
    they rest on ([str] methods, the [re] matcher, UTF-8, MD5). *)

From Stdlib Require Import String Ascii DecimalString DecimalNat.
From Stdlib Require Import NArith ZArith Arith Lia Bool List.
Import ListNotations.

(** ** Python strings *)

(** A [str] is a sequence of Unicode code points. *)
Definition char := N.
Definition str := list char.

(** Code points of a literal written in Basic Latin. *)
Definition lit (s : string) : str :=
  map N_of_ascii (list_ascii_of_string s).
Arguments lit s%_string.

(** [n] copies of a literal. *)
Definition rep (n : nat) (s : string) : str := concat (repeat (lit s) n).
Arguments rep n s%_string.

Definition NL : char := 10%N.
Definition SP : char := 32%N.

Module Py.

(** [Py_UNICODE_ISSPACE]: the characters [str.isspace], [str.strip],
    [str.split] and the pattern class [\s] treat as whitespace. *)
Definition isspace (c : char) : bool :=
  ((9 <=? c) && (c <=? 13) || (28 <=? c) && (c <=? 32)
   || (c =? 133) || (c =? 160) || (c =? 5760)
   || (8192 <=? c) && (c <=? 8202)
   || (c =? 8232) || (c =? 8233) || (c =? 8239) || (c =? 8287)
   || (c =? 12288))%N.

Fixpoint lstrip (s : str) : str :=
  match s with
  | c :: s' => if isspace c then lstrip s' else s
  | [] => []
  end.

Definition rstrip (s : str) : str := rev (lstrip (rev s)).

(** [s.strip()] *)
Definition strip (s : str) : str := rstrip (lstrip s).

(** [s.startswith(p)] *)
Fixpoint startswith (p s : str) : bool :=
  match p, s with
  | [], _ => true
  | a :: p', b :: s' => (a =? b)%N && startswith p' s'
  | _ :: _, [] => false
  end.

(** [needle in hay] *)
Fixpoint contains (needle hay : str) : bool :=
  startswith needle hay
  || match hay with
     | [] => false
     | _ :: hay' => contains needle hay'
     end.

(** [s.split()]: the maximal runs of non-whitespace, in order. *)
Fixpoint split_ws_from (cur : str) (s : str) : list str :=
  match s with
  | [] => match cur with [] => [] | _ => [cur] end
  | c :: s' =>
      if isspace c
      then match cur with
           | [] => split_ws_from [] s'
           | _ => cur :: split_ws_from [] s'
           end
      else split_ws_from (cur ++ [c]) s'
  end.

Definition split_ws (s : str) : list str := split_ws_from [] s.

(** [s.split(sep)] for a non-empty [sep]: [skip] counts the characters
    of a separator already recognised that are still to be passed. *)
Fixpoint split_from (sep : str) (skip : nat) (cur : str) (s : str)
  : list str :=
  match s with
  | [] => [cur]
  | c :: s' =>
      match skip with
      | S k => split_from sep k cur s'
      | O =>
          if startswith sep s
          then cur :: split_from sep (length sep - 1) [] s'
          else split_from sep 0 (cur ++ [c]) s'
      end
  end.

Definition split (sep s : str) : list str := split_from sep 0 [] s.

(** [sep.join(l)] *)
Fixpoint join (sep : str) (l : list str) : str :=
  match l with
  | [] => []
  | [w] => w
  | w :: l' => w ++ sep ++ join sep l'
  end.

(** [l[-n:]] for [n > 0] *)
Definition last_n {A} (n : nat) (l : list A) : list A :=
  skipn (length l - n) l.

(** [s[i:i+n]] *)
Definition slice {A} (i n : nat) (s : list A) : list A :=
  firstn n (skipn i s).

(** [range(start, stop, step)] for [step > 0]. *)
Fixpoint range_from (fuel : nat) (i stop step : nat) : list nat :=
  match fuel with
  | O => []
  | S fuel' =>
      if i <? stop then i :: range_from fuel' (i + step) stop step else []
  end.

Definition range (start stop step : nat) : list nat :=
  range_from stop start stop step.

(** [str(n)] for a non-negative [int]. *)
Definition str_of_nat (n : nat) : str :=
  lit (NilEmpty.string_of_uint (Nat.to_uint n)).

End Py.

(** ** The [re] matcher *)

Module Re.

(** The fragment of the pattern language the program uses.  Repetition
    is greedy and alternation ordered, as in [sre]. *)
Inductive regex : Type :=
| Eps : regex
| Chr : (char -> bool) -> regex
| Seq : regex -> regex -> regex
| Alt : regex -> regex -> regex
| Star : regex -> regex.

Definition Plus (r : regex) : regex := Seq r (Star r).
Definition Opt (r : regex) : regex := Alt r Eps.

Fixpoint Lit (s : str) : regex :=
  match s with
  | [] => Eps
  | c :: s' => Seq (Chr (N.eqb c)) (Lit s')
  end.

(** Character classes. *)
Definition one (a : char) : char -> bool := fun c => (c =? a)%N.
Definition rng (a b : char) : char -> bool :=
  fun c => ((a <=? c) && (c <=? b))%N.
Definition cls (ps : list (char -> bool)) : char -> bool :=
  fun c => existsb (fun p => p c) ps.
Definition ch (a : string) : char :=
  match lit a with c :: _ => c | [] => 0%N end.
Arguments ch a%_string.

(** Greedy repetition of [step]: another iteration is tried first and
    must consume input; the continuation [k] is the way out. *)
Fixpoint star_loop {A} (step : str -> (str -> option A) -> option A)
  (k : str -> option A) (n : nat) (s : str) : option A :=
  match n with
  | O => k s
  | S n' =>
      match
        step s
          (fun s' => if length s' <? length s then star_loop step k n' s'
                     else None)
      with
      | Some x => Some x
      | None => k s
      end
  end.

(** Backtracking match of [r] at the head of [s]: [k] receives what is
    left of the input; the first success in priority order wins. *)
Fixpoint exec {A} (r : regex) (s : str) (k : str -> option A) : option A :=
  match r with
  | Eps => k s
  | Chr p =>
      match s with
      | c :: s' => if p c then k s' else None
      | [] => None
      end
  | Seq a b => exec a s (fun s' => exec b s' k)
  | Alt a b =>
      match exec a s k with
      | Some x => Some x
      | None => exec b s k
      end
  | Star a => star_loop (exec a) k (length s) s
  end.

(** [re.match(r, s)]: the unmatched rest, when [r] matches at the start. *)
Definition match_ (r : regex) (s : str) : option str := exec r s Some.

(** [re.sub(r, repl, s)] for a replacement without group references:
    leftmost non-overlapping matches are replaced; an empty match is
    replaced and the scan moves one character on. *)
Fixpoint sub_from (fuel : nat) (r : regex) (repl : str) (s : str) : str :=
  match fuel with
  | O => s
  | S fuel' =>
      match match_ r s with
      | Some rest =>
          if length rest <? length s
          then repl ++ sub_from fuel' r repl rest
          else match s with
               | [] => repl
               | c :: s' => repl ++ c :: sub_from fuel' r repl s'
               end
      | None =>
          match s with
          | [] => []
          | c :: s' => c :: sub_from fuel' r repl s'
          end
      end
  end.

Definition sub (r : regex) (repl : str) (s : str) : str :=
  sub_from (S (length s)) r repl s.

End Re.

(** ** Unicode tables of the runtime *)

(** The decimal-digit class and the case mappings come from the Unicode
    database of the interpreter; the program is modelled over any such
    tables. *)
Class UnicodeData : Type := {
  isdecimal : char -> bool;      (* the class [\d] *)
  str_lower : str -> str;        (* [s.lower()] *)
  str_isupper : str -> bool      (* [s.isupper()] *)
}.

(** The tables on Basic Latin, where they are those of every version. *)
Definition ascii_isdecimal (c : char) : bool := ((48 <=? c) && (c <=? 57))%N.
Definition ascii_isupper (c : char) : bool := ((65 <=? c) && (c <=? 90))%N.
Definition ascii_islower (c : char) : bool := ((97 <=? c) && (c <=? 122))%N.
Definition ascii_lower (s : str) : str :=
  map (fun c => if ascii_isupper c then (c + 32)%N else c) s.
Definition ascii_str_isupper (s : str) : bool :=
  negb (existsb ascii_islower s) && existsb ascii_isupper s.

Definition ascii_data : UnicodeData :=
  {| isdecimal := ascii_isdecimal;
     str_lower := ascii_lower;
     str_isupper := ascii_str_isupper |}.

(** ** Configuration *)

Definition CHUNK_SIZE : nat := 1000.
Definition CHUNK_OVERLAP : nat := 200.
Definition MIN_CHUNK_SIZE : nat := 300.

(** ** [clean_text] *)

Section Normalizer.
Context {U : UnicodeData}.
Import Re.

Definition ws : regex := Chr Py.isspace.
Definition nonws : regex := Chr (fun c => negb (Py.isspace c)).
Definition digit : regex := Chr isdecimal.
Definition nl : regex := Chr (one NL).
Definition hex : regex :=
  Chr (cls [rng (ch "0") (ch "9"); rng (ch "a") (ch "f");
            rng (ch "A") (ch "F")]).

(** [\n\d+\s*\n] *)
Definition page_number_re : regex :=
  Seq nl (Seq (Plus digit) (Seq (Star ws) nl)).

(** [\n\s*Page \d+\s*\n] *)
Definition page_footer_re : regex :=
  Seq nl (Seq (Star ws) (Seq (Lit (lit "Page "))
    (Seq (Plus digit) (Seq (Star ws) nl)))).

(** [http[s]?://(?:[a-zA-Z]|[0-9]|[$-_@.&+]|[!*\\(\\),]|(?:%[0-9a-fA-F][0-9a-fA-F]))+] *)
Definition url_re : regex :=
  Seq (Lit (lit "http")) (Seq (Opt (Chr (cls [one (ch "s")])))
    (Seq (Lit (lit "://"))
      (Plus
        (Alt (Chr (cls [rng (ch "a") (ch "z"); rng (ch "A") (ch "Z")]))
        (Alt (Chr (cls [rng (ch "0") (ch "9")]))
        (Alt (Chr (cls [rng (ch "$") (ch "_"); one (ch "@"); one (ch ".");
                        one (ch "&"); one (ch "+")]))
        (Alt (Chr (cls [one (ch "!"); one (ch "*"); one 92%N; one (ch "(");
                        one 92%N; one (ch ")"); one (ch ",")]))
             (Seq (Chr (one (ch "%"))) (Seq hex hex))))))))).

(** [\S+@\S+] *)
Definition email_re : regex :=
  Seq (Plus nonws) (Seq (Chr (one (ch "@"))) (Plus nonws)).

Definition clean_text (text : str) : str :=
  (* Remove excessive whitespace *)
  let text := sub (Plus ws) [SP] text in
  (* Remove page numbers and headers/footers *)
  let text := sub page_number_re [NL] text in
  let text := sub page_footer_re [NL] text in
  (* Remove URLs and email addresses *)
  let text := sub url_re [] text in
  let text := sub email_re [] text in
  (* Normalize quotes and dashes *)
  let text := sub (Chr (cls [one 34%N; one 34%N])) [34%N] text in
  let text := sub (Chr (cls [one 96%N])) [39%N] text in
  let text := sub (Chr (cls [one 8212%N; one 8211%N])) [45%N] text in
  Py.strip text.

End Normalizer.

(** ** [chunk_text] *)

Record Metadata : Type := mkMetadata {
  book : str;
  chapter : str;
  section : str;
  chunk_id : nat
}.

Record Chunk : Type := mkChunk {
  text : str;
  metadata : Metadata
}.

(** The variables of the paragraph loop. *)
Record Loop : Type := mkLoop {
  chunks : list Chunk;
  current_chunk : str;
  current_chapter : str;
  current_section : str;
  chunk_count : nat
}.

Definition PARA : str := [NL; NL].

Section Chunker.
Context {U : UnicodeData}.

(** The heading test of the loop:
    [len(paragraph) < 100 and ('chapter' in paragraph.lower() or
     'section' in paragraph.lower() or paragraph.isupper() or
     re.match(r'^\d+\.', paragraph))].
    [re.match] anchors the pattern at the start, where [^] holds. *)
Definition is_heading (paragraph : str) : bool :=
  (length paragraph <? 100)
  && (Py.contains (lit "chapter") (str_lower paragraph)
      || Py.contains (lit "section") (str_lower paragraph)
      || str_isupper paragraph
      || match Re.match_ (Re.Seq (Re.Plus digit) (Re.Chr (Re.one (Re.ch "."))))
                 paragraph with
         | Some _ => true
         | None => false
         end).

(** [chunks.append({...}); chunk_count += 1] with the current labels. *)
Definition flush (book_name : str) (st : Loop) : Loop :=
  mkLoop
    (chunks st ++
       [mkChunk (Py.strip (current_chunk st))
          (mkMetadata book_name (current_chapter st) (current_section st)
             (chunk_count st))])
    (current_chunk st) (current_chapter st) (current_section st)
    (S (chunk_count st)).

Definition set_current_chunk (c : str) (st : Loop) : Loop :=
  mkLoop (chunks st) c (current_chapter st) (current_section st)
    (chunk_count st).

(** One iteration of [for paragraph in paragraphs]. *)
Definition paragraph_step (book_name : str) (st : Loop) (paragraph : str)
  : Loop :=
  let paragraph := Py.strip paragraph in
  match paragraph with
  | [] => st
  | _ :: _ =>
      if is_heading paragraph then
        (* Save current chunk if it's substantial *)
        let st :=
          if MIN_CHUNK_SIZE <=? length (current_chunk st)
          then set_current_chunk [] (flush book_name st)
          else st in
        (* Update chapter/section info *)
        if Py.contains (lit "chapter") (str_lower paragraph)
        then mkLoop (chunks st) (current_chunk st) paragraph []
               (chunk_count st)
        else mkLoop (chunks st) (current_chunk st) (current_chapter st)
               paragraph (chunk_count st)
      else if CHUNK_SIZE <? length (current_chunk st) + length paragraph + 2
      then
        if MIN_CHUNK_SIZE <=? length (current_chunk st)
        then
          (* Start new chunk with overlap *)
          let overlap_words := Py.last_n 30 (Py.split_ws (current_chunk st)) in
          set_current_chunk
            (Py.join [SP] overlap_words ++ PARA ++ paragraph ++ PARA)
            (flush book_name st)
        else
          set_current_chunk (current_chunk st ++ paragraph ++ PARA) st
      else
        set_current_chunk (current_chunk st ++ paragraph ++ PARA) st
  end.

Definition loop_init : Loop :=
  mkLoop [] [] (lit "Introduction") [] 0.

Definition paragraph_loop (book_name : str) (paragraphs : list str) : Loop :=
  fold_left (paragraph_step book_name) paragraphs loop_init.

(** The last chunk: flushed when its stripped length reaches the
    minimum; the counter is not advanced any more. *)
Definition final_flush (book_name : str) (st : Loop) : list Chunk :=
  if MIN_CHUNK_SIZE <=? length (Py.strip (current_chunk st))
  then chunks (flush book_name st)
  else chunks st.

(** The paragraph-based pass over the cleaned text. *)
Definition paragraph_chunks (book_name : str) (clean_text_content : str)
  : list Chunk :=
  final_flush book_name
    (paragraph_loop book_name (Py.split PARA clean_text_content)).

(** One iteration of the character-stride loop; the state is
    [(chunks, chunk_count)]. *)
Definition stride_step (book_name : str) (clean_text_content : str)
  (st : list Chunk * nat) (i : nat) : list Chunk * nat :=
  let '(chunks, chunk_count) := st in
  let chunk_text_content := Py.slice i CHUNK_SIZE clean_text_content in
  if MIN_CHUNK_SIZE <=? length chunk_text_content
  then (chunks ++
          [mkChunk chunk_text_content
             (mkMetadata book_name
                (lit "Section " ++ Py.str_of_nat (chunk_count / 10 + 1))
                (lit "Part " ++ Py.str_of_nat (chunk_count mod 10 + 1))
                chunk_count)],
        S chunk_count)
  else st.

Definition stride_chunks (book_name : str) (clean_text_content : str)
  : list Chunk :=
  fst (fold_left (stride_step book_name clean_text_content)
         (Py.range 0 (length clean_text_content)
            (CHUNK_SIZE - CHUNK_OVERLAP))
         ([], 0)).

(** The condition under which the paragraph chunks are thrown away. *)
Definition fallback (chunks : list Chunk) (clean_text_content : str) : bool :=
  (length chunks <? 5) && (CHUNK_SIZE * 2 <? length clean_text_content).

Definition chunk_text (text : str) (book_name : str) : list Chunk :=
  let clean_text_content := clean_text text in
  let chunks := paragraph_chunks book_name clean_text_content in
  if fallback chunks clean_text_content
  then stride_chunks book_name clean_text_content
  else chunks.

End Chunker.

(** ** UTF-8 and MD5 *)

(** [s.encode()]: [None] stands for the [UnicodeEncodeError] raised on a
    surrogate (or on a value that is no code point). *)
Definition utf8_char (c : char) : option (list N) :=
  (if c <? 128 then Some [c]
   else if c <? 2048 then Some [192 + c / 64; 128 + c mod 64]
   else if c <? 65536 then
     if (55296 <=? c) && (c <=? 57343) then None
     else Some [224 + c / 4096; 128 + (c / 64) mod 64; 128 + c mod 64]
   else if c <? 1114112 then
     Some [240 + c / 262144; 128 + (c / 4096) mod 64;
           128 + (c / 64) mod 64; 128 + c mod 64]
   else None)%N.

Fixpoint encode (s : str) : option (list N) :=
  match s with
  | [] => Some []
  | c :: s' =>
      match utf8_char c, encode s' with
      | Some b, Some bs => Some (b ++ bs)
      | _, _ => None
      end
  end.

Module MD5.
Local Open Scope N_scope.

(** Words are 32-bit: sums wrap around. *)
Definition w32 (x : N) : N := x mod 4294967296.
Definition not32 (x : N) : N := N.lxor x 4294967295.
Definition rotl (x c : N) : N :=
  w32 (N.lor (N.shiftl x c) (N.shiftr x (32 - c))).

Definition shifts : list N :=
  [7; 12; 17; 22; 7; 12; 17; 22; 7; 12; 17; 22; 7; 12; 17; 22;
   5; 9; 14; 20; 5; 9; 14; 20; 5; 9; 14; 20; 5; 9; 14; 20;
   4; 11; 16; 23; 4; 11; 16; 23; 4; 11; 16; 23; 4; 11; 16; 23;
   6; 10; 15; 21; 6; 10; 15; 21; 6; 10; 15; 21; 6; 10; 15; 21].

Definition K : list N :=
  [3614090360; 3905402710; 606105819; 3250441966; 4118548399; 1200080426;
   2821735955; 4249261313; 1770035416; 2336552879; 4294925233; 2304563134;
   1804603682; 4254626195; 2792965006; 1236535329; 4129170786; 3225465664;
   643717713; 3921069994; 3593408605; 38016083; 3634488961; 3889429448;
   568446438; 3275163606; 4107603335; 1163531501; 2850285829; 4243563512;
   1735328473; 2368359562; 4294588738; 2272392833; 1839030562; 4259657740;
   2763975236; 1272893353; 4139469664; 3200236656; 681279174; 3936430074;
   3572445317; 76029189; 3654602809; 3873151461; 530742520; 3299628645;
   4096336452; 1126891415; 2878612391; 4237533241; 1700485571; 2399980690;
   4293915773; 2240044497; 1873313359; 4264355552; 2734768916; 1309151649;
   4149444226; 3174756917; 718787259; 3951481745].

Definition state : Type := (N * N * N * N)%type.

Definition init : state := (1732584193, 4023233417, 2562383102, 271733878).

(** [n] bytes of [x], least significant first. *)
Fixpoint le_bytes (n : nat) (x : N) : list N :=
  match n with
  | O => []
  | S n' => x mod 256 :: le_bytes n' (x / 256)
  end.

(** The little-endian words of a block. *)
Fixpoint words (n : nat) (bytes : list N) : list N :=
  match n with
  | O => []
  | S n' =>
      match bytes with
      | b0 :: b1 :: b2 :: b3 :: rest =>
          (b0 + 256 * b1 + 65536 * b2 + 16777216 * b3) :: words n' rest
      | _ => []
      end
  end.

Definition pad (msg : list N) : list N :=
  let len := length msg in
  msg ++ [128] ++ repeat 0 ((119 - len mod 64) mod 64)%nat
      ++ le_bytes 8 ((8 * N.of_nat len) mod 18446744073709551616).

Definition round (M : list N) (st : state) (i : nat) : state :=
  let '(A, B, C, D) := st in
  let '(F, g) :=
    if (i <? 16)%nat then
      (N.lor (N.land B C) (N.land (not32 B) D), i)
    else if (i <? 32)%nat then
      (N.lor (N.land D B) (N.land (not32 D) C), ((5 * i + 1) mod 16)%nat)
    else if (i <? 48)%nat then
      (N.lxor (N.lxor B C) D, ((3 * i + 5) mod 16)%nat)
    else
      (N.lxor C (N.lor B (not32 D)), ((7 * i) mod 16)%nat) in
  let F := w32 (F + A + nth i K 0 + nth g M 0) in
  (D, w32 (B + rotl F (nth i shifts 0)), B, C).

Definition compress (st : state) (block : list N) : state :=
  let '(a0, b0, c0, d0) := st in
  let '(A, B, C, D) := fold_left (round (words 16 block)) (seq 0 64) st in
  (w32 (a0 + A), w32 (b0 + B), w32 (c0 + C), w32 (d0 + D)).

Fixpoint process (n : nat) (bytes : list N) (st : state) : state :=
  match n with
  | O => st
  | S n' => process n' (skipn 64 bytes) (compress st (firstn 64 bytes))
  end.

Definition md5 (msg : list N) : state :=
  let p := pad msg in
  process (length p / 64) p init.

Definition hex_digit (x : N) : char :=
  if x <? 10 then 48 + x else 87 + x.

Definition hex_byte (b : N) : str := [hex_digit (b / 16); hex_digit (b mod 16)].

(** [hashlib.md5(msg).hexdigest()] *)
Definition hexdigest (msg : list N) : str :=
  let '(a, b, c, d) := md5 msg in
  flat_map hex_byte
    (le_bytes 4 a ++ le_bytes 4 b ++ le_bytes 4 c ++ le_bytes 4 d).

End MD5.

(** ** [generate_chunk_id] *)

(** [f"{chunk['metadata']['book']}_{chunk['metadata']['chunk_id']}_{chunk['text'][:100]}"] *)
Definition id_content (chunk : Chunk) : str :=
  book (metadata chunk) ++ lit "_"
    ++ Py.str_of_nat (chunk_id (metadata chunk)) ++ lit "_"
    ++ firstn 100 (text chunk).

(** [None]: the encoding of the content raised. *)
Definition generate_chunk_id (chunk : Chunk) : option str :=
  match encode (id_content chunk) with
  | Some bytes => Some (MD5.hexdigest bytes)
  | None => None
  end.

(** ** Embedding and upsert *)

(** Outcome of a computation that may raise. *)
Inductive result (A : Type) : Type :=
| Ok : A -> result A
| Raise : result A.
Arguments Ok {A} _.
Arguments Raise {A}.

Section Pipeline.
(** The embedding returned by the backend (a list of floats), and the
    state of the two remote services. *)
Variable vector : Type.
Variable World : Type.

(** [{"id": ..., "values": ..., "metadata": {**chunk['metadata'], "text": ...}}] *)
Record Vector : Type := mkVector {
  id : str;
  values : vector;
  vector_metadata : Metadata;
  vector_text : str
}.

(** What the remote services answer; [None] and [false] stand for a
    raised exception.  [embeddings_create] covers the construction of
    the client and the request. *)
Variable embeddings_create : str -> World -> option vector * World.
Variable pinecone_index : World -> bool * World.
Variable index_upsert : list Vector -> World -> bool * World.
Variable describe_index_stats : World -> bool * World.

(** The calls made, in order. *)
Inductive Event : Type :=
| EmbeddingsCreate (input : str)
| Sleep
| PineconeIndex
| IndexUpsert (vectors : list Vector)
| DescribeIndexStats.

Definition State : Type := (World * list Event)%type.

(** State and exceptions. *)
Definition M (A : Type) : Type := State -> result A * State.

Definition ret {A} (a : A) : M A := fun st => (Ok a, st).

Definition bind {A B} (m : M A) (f : A -> M B) : M B :=
  fun st =>
    match m st with
    | (Ok a, st') => f a st'
    | (Raise, st') => (Raise, st')
    end.

Definition raise {A} : M A := fun st => (Raise, st).

(** [try: body except Exception: handler] *)
Definition try_except {A} (body handler : M A) : M A :=
  fun st =>
    match body st with
    | (Ok a, st') => (Ok a, st')
    | (Raise, st') => handler st'
    end.

Definition call_embeddings_create (input : str) : M vector :=
  fun '(w, tr) =>
    match embeddings_create input w with
    | (Some e, w') => (Ok e, (w', tr ++ [EmbeddingsCreate input]))
    | (None, w') => (Raise, (w', tr ++ [EmbeddingsCreate input]))
    end.

Definition call_bool (ev : Event) (f : World -> bool * World) : M unit :=
  fun '(w, tr) =>
    match f w with
    | (true, w') => (Ok tt, (w', tr ++ [ev]))
    | (false, w') => (Raise, (w', tr ++ [ev]))
    end.

Definition sleep : M unit := fun '(w, tr) => (Ok tt, (w, tr ++ [Sleep])).

Fixpoint foldM {A B} (f : A -> B -> M A) (l : list B) (a : A) : M A :=
  match l with
  | [] => ret a
  | b :: l' => bind (f a b) (foldM f l')
  end.

Definition create_embedding (text : str) : M (option vector) :=
  try_except
    (let estimated_tokens := (N.of_nat (length text) / 4)%N in
     let max_tokens := 8000%N in
     let text :=
       if (max_tokens <? estimated_tokens)%N
       then firstn (N.to_nat (max_tokens * 4)) text
       else text in
     bind (call_embeddings_create text) (fun embedding =>
     ret (Some embedding)))
    (ret None).

(** The body of [for chunk in batch]. *)
Definition embed_step (vectors : list Vector) (chunk : Chunk)
  : M (list Vector) :=
  bind (create_embedding (text chunk)) (fun embedding =>
  match embedding with
  | None => ret vectors
  | Some e =>
      match generate_chunk_id chunk with
      | None => raise
      | Some vector_id =>
          bind sleep (fun _ =>
          ret (vectors ++
                 [mkVector vector_id e (metadata chunk)
                    (firstn 1000 (text chunk))]))
      end
  end).

(** The body of [for i in range(0, total_chunks, batch_size)]. *)
Definition upsert_batch (batch : list Chunk) : M unit :=
  bind (foldM embed_step batch []) (fun vectors =>
  match vectors with
  | [] => ret tt
  | _ :: _ => call_bool (IndexUpsert vectors) (index_upsert vectors)
  end).

Definition batch_size : nat := 100.

Definition batches (chunks : list Chunk) : list (list Chunk) :=
  map (fun i => Py.slice i batch_size chunks)
    (Py.range 0 (length chunks) batch_size).

Definition upsert_to_pinecone (chunks : list Chunk) : M bool :=
  try_except
    (bind (call_bool PineconeIndex pinecone_index) (fun _ =>
     bind (foldM (fun _ batch => upsert_batch batch) (batches chunks) tt)
       (fun _ =>
     bind (call_bool DescribeIndexStats describe_index_stats) (fun _ =>
     ret true))))
    (ret false).

End Pipeline.

Arguments mkVector {vector}.
Arguments EmbeddingsCreate {vector}.
Arguments Sleep {vector}.
Arguments PineconeIndex {vector}.
Arguments IndexUpsert {vector}.
Arguments DescribeIndexStats {vector}.
Arguments ret {vector World A}.
Arguments bind {vector World A B}.
Arguments raise {vector World A}.
Arguments try_except {vector World A}.
Arguments call_embeddings_create {vector World}.
Arguments call_bool {vector World}.
Arguments sleep {vector World}.
Arguments foldM {vector World A B}.
Arguments create_embedding {vector World}.
Arguments embed_step {vector World}.
Arguments upsert_batch {vector World}.
Arguments upsert_to_pinecone {vector World}.


(** ** Vocabulary of the statements *)

(** [s'] is what remains of [s] after some prefix. *)
Definition rest_of (s' s : str) : Prop := exists p, s = p ++ s'.

(** What the first substitution of [clean_text] returns. *)
Definition collapsed (text : str) : str := Re.sub (Re.Plus ws) [SP] text.

Definition ids (l : list Chunk) : list nat :=
  map (fun c => chunk_id (metadata c)) l.

(** The chunks carry the ids [0, 1, ...] and the counter is the next. *)
Definition numbered (l : list Chunk) (n : nat) : Prop :=
  ids l = seq 0 (length l) /\ n = length l.

(** The windows as the specification lists them: [content[i : i + size]]
    for [i = 0, step, 2 * step, ...], those shorter than [floor] dropped.
    Past the end of [content] a window is empty, so the bound on [j]
    only has to be large enough. *)
Definition windows (size step floor : nat) (content : str) : list str :=
  filter (fun w => floor <=? length w)
    (map (fun j => firstn size (skipn (j * step) content))
       (seq 0 (length content))).

Definition stride_windows (content : str) : list str :=
  windows CHUNK_SIZE (CHUNK_SIZE - CHUNK_OVERLAP) MIN_CHUNK_SIZE content.

(** One window, and the test that keeps it. *)
Definition window_at (size : nat) (content : str) (i : nat) : str :=
  Py.slice i size content.
Definition is_kept (floor : nat) (w : str) : bool := floor <=? length w.

(** The heading rule in the words of the specification. *)
Definition contains_ci {U : UnicodeData} (needle : string) (p : str) : Prop :=
  exists a b, str_lower p = a ++ lit needle ++ b.

Definition digits_dot {U : UnicodeData} (p : str) : Prop :=
  exists ds rest,
    ds <> [] /\ (forall d, In d ds -> isdecimal d = true)
    /\ p = ds ++ Re.ch "." :: rest.

Definition heading {U : UnicodeData} (p : str) : Prop :=
  length p < 100
  /\ (contains_ci "chapter" p \/ contains_ci "section" p
      \/ str_isupper p = true \/ digits_dot p).

Definition is_digit (c : char) : Prop := (48 <= c <= 57)%N.

Definition modulus : N := 4294967296.

(** Every word of a state is a 32-bit word. *)
Definition bounded (st : MD5.state) : Prop :=
  let '(a, b, c, d) := st in
  (a < modulus /\ b < modulus /\ c < modulus /\ d < modulus)%N.

(** A state read as one number below [2^128]. *)
Definition number (st : MD5.state) : N :=
  let '(a, b, c, d) := st in
  (a + modulus * (b + modulus * (c + modulus * d)))%N.

Definition digests : N := 340282366920938463463374607431768211456.

(** Passages of the book with the empty name and no text, one for each
    position. *)
Definition probe (n : nat) : Chunk := mkChunk [] (mkMetadata [] [] [] n).

Section PipelineSpec.
Variable vector : Type.
Variable World : Type.
Variable embeddings_create : str -> World -> option vector * World.

(** The text sent to the backend: cut to [32000] characters when its
    estimate exceeds [8000] tokens. *)
Definition embedding_input (t : str) : str :=
  if (8000 <? N.of_nat (length t) / 4)%N
  then firstn (N.to_nat (8000 * 4)) t
  else t.

(** What the backend answers for the passages of a batch, asked in
    order. *)
Fixpoint outcomes (batch : list Chunk) (w : World)
  : list (option vector) * World :=
  match batch with
  | [] => ([], w)
  | c :: batch' =>
      let '(o, w1) := embeddings_create (embedding_input (text c)) w in
      let '(os, w2) := outcomes batch' w1 in
      (o :: os, w2)
  end.

(** The vector of a passage, if it has an id. *)
Definition vector_of (c : Chunk) (e : vector) : list (Vector vector) :=
  match generate_chunk_id c with
  | Some vector_id =>
      [mkVector vector_id e (metadata c) (firstn 1000 (text c))]
  | None => []
  end.

(** The vectors of the passages that were embedded. *)
Fixpoint embedded (batch : list Chunk) (os : list (option vector))
  : list (Vector vector) :=
  match batch, os with
  | c :: batch', Some e :: os' => vector_of c e ++ embedded batch' os'
  | _ :: batch', None :: os' => embedded batch' os'
  | _, _ => []
  end.

(** The calls the loop over a batch makes. *)
Fixpoint embed_events (batch : list Chunk) (os : list (option vector))
  : list (Event vector) :=
  match batch, os with
  | c :: batch', Some _ :: os' =>
      EmbeddingsCreate (embedding_input (text c))
        :: Sleep :: embed_events batch' os'
  | c :: batch', None :: os' =>
      EmbeddingsCreate (embedding_input (text c))
        :: embed_events batch' os'
  | _, _ => []
  end.

Definition has_id (c : Chunk) : Prop := generate_chunk_id c <> None.

Definition embedded_count (os : list (option vector)) : nat :=
  length (filter (fun o => match o with Some _ => true | None => false end)
            os).

End PipelineSpec.

Arguments outcomes {vector World}.
Arguments vector_of {vector}.
Arguments embedded {vector}.
Arguments embed_events {vector}.
Arguments embedded_count {vector}.

(** ** Concrete inputs *)

Definition book0 : str := lit "Prealgebra".

(** 2500 characters of short words: no paragraph break survives, so the
    fallback is taken. *)
Definition long_text : str := rep 500 "word ".

(** 300 characters: one passage of the paragraph pass. *)
Definition short_text : str := rep 100 "abc".

Definition dummy_chunk : Chunk := mkChunk [] (mkMetadata [] [] [] 0).

(** An accumulator of 300 characters and a paragraph of 999. *)
Definition full_loop : Loop :=
  mkLoop [] (rep 60 "word ") (lit "Introduction") [] 0.
Definition big_paragraph : str := rep 200 "text ".

(** Two passages that differ after their first 100 characters, and one
    at another position. *)
Definition passage_a : Chunk :=
  mkChunk (rep 100 "a" ++ lit "xyz") (mkMetadata book0 [] [] 3).
Definition passage_b : Chunk :=
  mkChunk (rep 100 "a" ++ lit "uvw") (mkMetadata book0 (lit "Ch") [] 3).
Definition passage_c : Chunk :=
  mkChunk (rep 100 "a" ++ lit "xyz") (mkMetadata book0 [] [] 4).

(** A backend that fails on every other call, and a store that answers. *)
Definition flaky_backend (t : str) (w : nat) : option nat * nat :=
  (if Nat.even w then Some (length t) else None, S w).
Definition store_ok (w : nat) : bool * nat := (true, w).
Definition upsert_ok (vs : list (Vector nat)) (w : nat) : bool * nat :=
  (true, w).

(** A text with a back quote and spaces around it, and one too short for
    a passage. *)
Definition quoted_text : str := lit "  it`s  here ".
Definition tiny_text : str := lit "Too short for a passage.".

(** The id of [passage_a]. *)
Definition passage_a_id : str := lit "c251f5ec61b02e3979cb422f060b3c0c".

(** A store that refuses every upsert. *)
Definition upsert_fail (vs : list (Vector nat)) (w : nat) : bool * nat :=
  (false, w).

(** The vectors of a batch of three passages, the second of which the
    backend fails to embed. *)
Definition three_passages : list Chunk := [passage_a; passage_b; passage_c].
Definition three_embedded : list (Vector nat) :=
  match fst (foldM (embed_step flaky_backend) three_passages [] (0, [])) with
  | Ok vs => vs
  | Raise => []
  end.
Definition dummy_vector : Vector nat := mkVector [] 0 (metadata dummy_chunk) [].

(** ** Vocabulary of the further statements *)

(** A string that neither starts nor ends with whitespace. *)
Definition trimmed (s : str) : Prop :=
  Py.lstrip s = s /\ Py.lstrip (rev s) = rev s.

(** The characters the normaliser writes itself: space, straight double
    and single quote, hyphen. *)
Definition written (c : char) : Prop :=
  c = SP \/ c = 34%N \/ c = 39%N \/ c = 45%N.

(** The single passage of the paragraph pass. *)
Definition whole_passage (book_name content : str) : Chunk :=
  mkChunk content (mkMetadata book_name (lit "Introduction") [] 0).

(** Passage [k] of the character-stride pass, and the number of them for
    a text of [n] characters. *)
Definition stride_passage (book_name content : str) (k : nat) : Chunk :=
  mkChunk (Py.slice (k * (CHUNK_SIZE - CHUNK_OVERLAP)) CHUNK_SIZE content)
    (mkMetadata book_name
       (lit "Section " ++ Py.str_of_nat (k / 10 + 1))
       (lit "Part " ++ Py.str_of_nat (k mod 10 + 1))
       k).

Definition stride_count (n : nat) : nat :=
  (n + (CHUNK_SIZE - CHUNK_OVERLAP - MIN_CHUNK_SIZE))
  / (CHUNK_SIZE - CHUNK_OVERLAP).

(** A code point UTF-8 can encode: below [0x110000] and no surrogate. *)
Definition scalar (c : char) : Prop :=
  (c < 1114112 /\ ~ (55296 <= c <= 57343))%N.

Definition scalarb (c : char) : bool :=
  ((c <? 1114112) && negb ((55296 <=? c) && (c <=? 57343)))%N.

(** A lower-case hexadecimal digit. *)
Definition hex_char (c : char) : Prop :=
  (48 <= c <= 57 \/ 97 <= c <= 102)%N.

Arguments id {vector}.
Arguments values {vector}.
Arguments vector_metadata {vector}.
Arguments vector_text {vector}.

(** The number of calls to the embedding backend in a trace. *)
Definition embedding_calls {vector : Type} (tr : list (Event vector)) : nat :=
  length (filter (fun ev => match ev with
                            | EmbeddingsCreate _ => true
                            | _ => false
                            end) tr).

(** No [@] of [t] stands between two characters that are not
    whitespace: nothing in [t] matches [\S+@\S+]. *)
Definition no_email (t : str) : Prop :=
  forall l x y r,
    t = l ++ x :: 64%N :: y :: r ->
    Py.isspace x = true \/ Py.isspace y = true.

(** What [chunk_text] makes of a cleaned text [content]: nothing, the
    whole text, or the passages of the character-stride pass. *)
Definition chunked (book_name content : str) (l : list Chunk) : Prop :=
  (length content < MIN_CHUNK_SIZE /\ l = [])
  \/ (MIN_CHUNK_SIZE <= length content <= 2 * CHUNK_SIZE
      /\ l = [whole_passage book_name content])
  \/ (2 * CHUNK_SIZE < length content
      /\ l = map (stride_passage book_name content)
               (seq 0 (stride_count (length content)))).

(** The text [r] is at the end of a token: it is empty or goes on with
    whitespace. *)
Definition ends_token (r : str) : Prop :=
  r = [] \/ exists w r', r = w :: r' /\ Py.isspace w = true.

(** * Properties *)

Ltac euclid := zify; Z.to_euclidean_division_equations; lia.

(** ** The matcher *)

Module ReFacts.
Import Re.


Lemma rest_of_refl s : rest_of s s.
Proof. now exists []. Qed.

Lemma rest_of_trans s1 s2 s3 : rest_of s1 s2 -> rest_of s2 s3 -> rest_of s1 s3.
Proof.
  intros [p ->] [q ->]. exists (q ++ p). now rewrite app_assoc.
Qed.

Lemma rest_of_length s' s : rest_of s' s -> length s' <= length s.
Proof. intros [p ->]. rewrite length_app. lia. Qed.

Lemma rest_of_In s' s c : rest_of s' s -> In c s' -> In c s.
Proof. intros [p ->] H. apply in_or_app. now right. Qed.

Lemma star_loop_rest A (step : str -> (str -> option A) -> option A) k :
  (forall s k' x, step s k' = Some x ->
                  exists s', k' s' = Some x /\ rest_of s' s) ->
  forall n s x, star_loop step k n s = Some x ->
                exists s', k s' = Some x /\ rest_of s' s.
Proof.
  intros Hstep n. induction n as [|n IH]; intros s x H; simpl in H.
  - exists s. split; [assumption | apply rest_of_refl].
  - destruct (step s _) as [y|] eqn:E.
    + injection H as ->. apply Hstep in E. destruct E as (s1 & E & R1).
      destruct (length s1 <? length s); [|discriminate].
      apply IH in E. destruct E as (s2 & E & R2).
      exists s2. split; [assumption | eapply rest_of_trans; eassumption].
    + exists s. split; [assumption | apply rest_of_refl].
Qed.

(** A successful match hands the continuation a rest of its input. *)
Lemma exec_rest A (r : regex) : forall s (k : str -> option A) x,
  exec r s k = Some x -> exists s', k s' = Some x /\ rest_of s' s.
Proof.
  induction r as [|p|a IHa b IHb|a IHa b IHb|a IHa]; intros s k x H;
    simpl in H.
  - exists s. split; [assumption | apply rest_of_refl].
  - destruct s as [|c s]; [discriminate|].
    destruct (p c); [|discriminate].
    exists s. split; [assumption | now exists [c]].
  - apply IHa in H. destruct H as (s1 & H & R1).
    apply IHb in H. destruct H as (s2 & H & R2).
    exists s2. split; [assumption | eapply rest_of_trans; eassumption].
  - destruct (exec a s k) as [y|] eqn:E.
    + injection H as ->. now apply IHa.
    + now apply IHb.
  - eapply star_loop_rest; [|eassumption]. intros; now apply IHa.
Qed.

Lemma match_rest r s rest : match_ r s = Some rest -> rest_of rest s.
Proof.
  intros H. apply exec_rest in H. destruct H as (s' & E & R).
  now injection E as <-.
Qed.

(** A pattern that begins with a character class consumes input. *)
Lemma match_Chr_shorter p r s rest :
  match_ (Seq (Chr p) r) s = Some rest -> length rest < length s.
Proof.
  unfold match_. simpl. destruct s as [|c s]; [discriminate|].
  destruct (p c); [|discriminate].
  intros H. apply match_rest in H. apply rest_of_length in H. simpl. lia.
Qed.

Lemma match_Chr_head p r s rest :
  match_ (Seq (Chr p) r) s = Some rest ->
  exists c s', s = c :: s' /\ p c = true.
Proof.
  unfold match_. simpl. destruct s as [|c s]; [discriminate|].
  destruct (p c) eqn:E; [|discriminate]. intros _. now exists c, s.
Qed.

(** Greedy repetition with a total continuation never fails. *)
Lemma star_total (a : regex) s : match_ (Star a) s <> None.
Proof.
  unfold match_. simpl. destruct (length s) as [|n]; simpl.
  - discriminate.
  - destruct (exec a s _); discriminate.
Qed.

Lemma plus_Chr_matches p c s : p c = true -> match_ (Plus (Chr p)) (c :: s) <> None.
Proof.
  intros H. unfold match_, Plus. simpl. rewrite H.
  apply (star_total (Chr p) s).
Qed.

(** Every character of the result of a substitution comes from the
    subject or from the replacement. *)
Lemma sub_from_In r repl : forall fuel s c,
  In c (sub_from fuel r repl s) -> In c s \/ In c repl.
Proof.
  induction fuel as [|fuel IH]; intros s c H; simpl in H.
  - now left.
  - destruct (match_ r s) as [rest|] eqn:E.
    + apply match_rest in E.
      destruct (length rest <? length s).
      * apply in_app_or in H. destruct H as [H|H]; [now right|].
        apply IH in H. destruct H as [H|H]; [left|now right].
        eapply rest_of_In; eassumption.
      * destruct s as [|d s]; [now right|].
        apply in_app_or in H. destruct H as [H|H]; [now right|].
        destruct H as [->|H]; [left; now left|].
        apply IH in H. destruct H as [H|H]; [left; now right|now right].
    + destruct s as [|d s]; [contradiction|].
      destruct H as [->|H]; [left; now left|].
      apply IH in H. destruct H as [H|H]; [left; now right|now right].
Qed.

Lemma sub_In r repl s c : In c (sub r repl s) -> In c s \/ In c repl.
Proof. apply sub_from_In. Qed.

(** A pattern whose first character occurs nowhere matches nowhere. *)
Lemma sub_from_no_head p r repl : forall fuel s,
  (forall c, In c s -> p c = false) ->
  sub_from fuel (Seq (Chr p) r) repl s = s.
Proof.
  induction fuel as [|fuel IH]; intros s H; simpl; [reflexivity|].
  destruct (match_ (Seq (Chr p) r) s) as [rest|] eqn:E.
  - apply match_Chr_head in E. destruct E as (c & s' & -> & E).
    rewrite H in E by now left. discriminate.
  - destruct s as [|d s]; [reflexivity|].
    f_equal. apply IH. intros c Hc. apply H. now right.
Qed.

Lemma sub_no_head p r repl s :
  (forall c, In c s -> p c = false) -> sub (Seq (Chr p) r) repl s = s.
Proof. apply sub_from_no_head. Qed.

(** After [\s+] has been replaced by [repl], the whitespace left is
    that of [repl]. *)
Lemma sub_from_ws repl : forall fuel s c,
  length s < fuel ->
  In c (sub_from fuel (Plus (Chr Py.isspace)) repl s) ->
  Py.isspace c = true -> In c repl.
Proof.
  induction fuel as [|fuel IH]; intros s c Hf H Hc; [lia|].
  simpl in H.
  destruct (match_ (Plus (Chr Py.isspace)) s) as [rest|] eqn:E.
  - pose proof (match_Chr_shorter _ _ _ _ E) as Hlt.
    apply Nat.ltb_lt in Hlt. rewrite Hlt in H. apply Nat.ltb_lt in Hlt.
    apply in_app_or in H. destruct H as [H|H]; [assumption|].
    apply (IH rest c); [lia|assumption|assumption].
  - destruct s as [|d s]; [contradiction|].
    destruct H as [->|H].
    + exfalso. now apply (plus_Chr_matches Py.isspace c s Hc).
    + apply (IH s c); [simpl in Hf; lia|assumption|assumption].
Qed.

End ReFacts.

(** ** Strings *)

Module PyFacts.
Import Py.

Lemma lstrip_In s c : In c (lstrip s) -> In c s.
Proof.
  induction s as [|d s IH]; simpl; [easy|].
  destruct (isspace d); [right; now apply IH | easy].
Qed.

Lemma strip_In s c : In c (strip s) -> In c s.
Proof.
  unfold strip, rstrip. intros H.
  apply in_rev, lstrip_In, in_rev, lstrip_In in H. exact H.
Qed.

Lemma lstrip_length s : length (lstrip s) <= length s.
Proof.
  induction s as [|d s IH]; simpl; [lia|].
  destruct (isspace d); simpl; lia.
Qed.

Lemma strip_length s : length (strip s) <= length s.
Proof.
  unfold strip, rstrip. rewrite length_rev.
  etransitivity; [apply lstrip_length|]. rewrite length_rev.
  apply lstrip_length.
Qed.

(** Stripping leaves alone a string that neither starts nor ends with
    whitespace. *)
Lemma lstrip_all s : (forall c, In c s -> isspace c = true) -> lstrip s = [].
Proof.
  induction s as [|d s IH]; intros H; simpl; [reflexivity|].
  rewrite (H d) by now left. apply IH. intros c Hc. apply H. now right.
Qed.

Lemma strip_all s : (forall c, In c s -> isspace c = true) -> strip s = [].
Proof. intros H. unfold strip. now rewrite (lstrip_all s H). Qed.

(** Without a line feed there is no paragraph separator to split on. *)
Lemma split_from_no_NL : forall s cur,
  ~ In NL s -> split_from PARA 0 cur s = [cur ++ s].
Proof.
  induction s as [|c s IH]; intros cur H; cbn [split_from].
  - now rewrite app_nil_r.
  - assert (E : startswith PARA (c :: s) = false).
    { unfold PARA. cbn [startswith].
      destruct (N.eqb_spec NL c) as [<-|]; [|reflexivity].
      exfalso. apply H. now left. }
    rewrite E, IH.
    + now rewrite <- app_assoc.
    + intros Hin. apply H. now right.
Qed.

Lemma split_no_NL s : ~ In NL s -> split PARA s = [s].
Proof. intros H. unfold split. now rewrite split_from_no_NL. Qed.

End PyFacts.

(** ** The normaliser *)

Section NormalizerFacts.
Context {U : UnicodeData}.
Import Re ReFacts.


Lemma collapsed_space text c :
  In c (collapsed text) -> Py.isspace c = true -> c = SP.
Proof.
  intros H Hc. unfold collapsed, sub in H.
  apply sub_from_ws in H; [|lia|assumption].
  destruct H as [<-|[]]. reflexivity.
Qed.

Lemma collapsed_no_NL text : forall c, In c (collapsed text) -> one NL c = false.
Proof.
  intros c H. unfold one. destruct (N.eqb_spec c NL) as [->|]; [|reflexivity].
  apply collapsed_space in H; [discriminate H | reflexivity].
Qed.

(** The two page-number substitutions find nothing to replace: their
    patterns begin with a line feed and the text has none left. *)
Lemma page_patterns_never_match text :
  sub page_footer_re [NL] (sub page_number_re [NL] (collapsed text))
  = collapsed text.
Proof.
  unfold page_number_re, page_footer_re, nl.
  rewrite (sub_no_head (one NL) _ [NL] (collapsed text) (collapsed_no_NL text)).
  apply sub_no_head, collapsed_no_NL.
Qed.

(** No line feed survives normalisation. *)
Lemma clean_text_no_NL text : ~ In NL (clean_text text).
Proof.
  unfold clean_text. fold (collapsed text).
  rewrite page_patterns_never_match. intros H.
  apply PyFacts.strip_In in H.
  do 5 (apply sub_In in H; destruct H as [H|H];
        [|simpl in H; unfold NL in H;
          repeat (destruct H as [H|H]; [discriminate H|]); contradiction]).
  apply collapsed_no_NL in H. discriminate H.
Qed.

(** The chunker therefore always sees one paragraph: the whole text. *)
Lemma clean_text_one_paragraph text :
  Py.split PARA (clean_text text) = [clean_text text].
Proof. apply PyFacts.split_no_NL, clean_text_no_NL. Qed.

Lemma star_Chr_all p : forall s,
  (forall c, In c s -> p c = true) -> match_ (Star (Chr p)) s = Some [].
Proof.
  induction s as [|c s IH]; intros H; [reflexivity|].
  unfold match_ in *. simpl. rewrite (H c) by now left.
  replace (length s <? S (length s)) with true
    by (symmetry; apply Nat.ltb_lt; lia).
  simpl in IH. rewrite IH; [reflexivity|].
  intros d Hd. apply H. now right.
Qed.

Lemma collapsed_all_space text :
  text <> [] -> (forall c, In c text -> Py.isspace c = true) ->
  collapsed text = [SP].
Proof.
  intros Hne H. destruct text as [|c s]; [contradiction|].
  unfold collapsed, sub, ws.
  change (sub_from (S (length (c :: s))) (Plus (Chr Py.isspace)) [SP] (c :: s))
    with (match match_ (Plus (Chr Py.isspace)) (c :: s) with
          | Some rest =>
              if length rest <? length (c :: s)
              then [SP] ++ sub_from (length (c :: s)) (Plus (Chr Py.isspace)) [SP] rest
              else [SP] ++ c :: sub_from (length (c :: s)) (Plus (Chr Py.isspace)) [SP] s
          | None => c :: sub_from (length (c :: s)) (Plus (Chr Py.isspace)) [SP] s
          end).
  assert (E : match_ (Plus (Chr Py.isspace)) (c :: s) = Some []).
  { unfold match_, Plus. simpl. rewrite (H c) by now left.
    apply (star_Chr_all Py.isspace). intros d Hd. apply H. now right. }
  rewrite E. reflexivity.
Qed.

Lemma clean_text_all_space text :
  (forall c, In c text -> Py.isspace c = true) -> clean_text text = [].
Proof.
  intros H. destruct text as [|c s] eqn:E; [reflexivity|].
  unfold clean_text. fold (collapsed (c :: s)).
  rewrite collapsed_all_space; [reflexivity|discriminate|assumption].
Qed.

End NormalizerFacts.

(** ** The chunker *)

Section ChunkerFacts.
Context {U : UnicodeData}.

(** *** Numbering *)


Lemma numbered_snoc l n t b c s :
  numbered l n -> numbered (l ++ [mkChunk t (mkMetadata b c s n)]) (S n).
Proof.
  intros [H ->]. unfold numbered, ids in *.
  rewrite map_app, length_app, H. simpl.
  rewrite Nat.add_1_r, seq_S. now split.
Qed.

Lemma paragraph_step_numbered book_name st paragraph :
  numbered (chunks st) (chunk_count st) ->
  numbered (chunks (paragraph_step book_name st paragraph))
           (chunk_count (paragraph_step book_name st paragraph)).
Proof.
  intros H. unfold paragraph_step.
  destruct (Py.strip paragraph) as [|c p]; [assumption|].
  destruct (is_heading (c :: p)).
  - destruct (MIN_CHUNK_SIZE <=? length (current_chunk st));
      destruct (Py.contains _ _); simpl;
      try assumption; now apply numbered_snoc.
  - destruct (CHUNK_SIZE <? _); [|assumption].
    destruct (MIN_CHUNK_SIZE <=? _); [|assumption].
    simpl. now apply numbered_snoc.
Qed.

Lemma paragraph_fold_numbered book_name paragraphs : forall st,
  numbered (chunks st) (chunk_count st) ->
  let st' := fold_left (paragraph_step book_name) paragraphs st in
  numbered (chunks st') (chunk_count st').
Proof.
  induction paragraphs as [|p ps IH]; intros st H; simpl; [assumption|].
  apply IH, paragraph_step_numbered, H.
Qed.

Lemma paragraph_chunks_ids book_name content :
  ids (paragraph_chunks book_name content)
  = seq 0 (length (paragraph_chunks book_name content)).
Proof.
  unfold paragraph_chunks, paragraph_loop, final_flush.
  pose proof (paragraph_fold_numbered book_name
                (Py.split PARA content) loop_init) as H.
  specialize (H (conj eq_refl eq_refl)). simpl in H.
  destruct (MIN_CHUNK_SIZE <=? _).
  - simpl. eapply numbered_snoc in H. apply H.
  - apply H.
Qed.

Lemma stride_fold_numbered book_name content l : forall st,
  numbered (fst st) (snd st) ->
  let st' := fold_left (stride_step book_name content) l st in
  numbered (fst st') (snd st').
Proof.
  induction l as [|i l IH]; intros [cs n] H; cbn [fold_left];
    [assumption|].
  apply IH. unfold stride_step.
  destruct (MIN_CHUNK_SIZE <=? length (Py.slice i CHUNK_SIZE content));
    [|assumption].
  cbn [fst snd] in *. now apply numbered_snoc.
Qed.

Lemma stride_chunks_ids book_name content :
  ids (stride_chunks book_name content)
  = seq 0 (length (stride_chunks book_name content)).
Proof.
  unfold stride_chunks.
  apply (stride_fold_numbered book_name content _ ([], 0)).
  now split.
Qed.

(** *** The paragraph pass on a text without separators *)

Lemma final_flush_In book_name st c :
  In c (final_flush book_name st) ->
  In c (chunks st)
  \/ (text c = Py.strip (current_chunk st)
      /\ MIN_CHUNK_SIZE <= length (text c)).
Proof.
  unfold final_flush.
  destruct (MIN_CHUNK_SIZE <=? _) eqn:E; [|now left].
  simpl. intros H. apply in_app_or in H. destruct H as [H|[<-|[]]].
  - now left.
  - right. simpl. split; [reflexivity|]. now apply Nat.leb_le.
Qed.

(** A first paragraph never makes the loop emit anything. *)
Lemma first_step_no_chunk book_name paragraph :
  chunks (paragraph_step book_name loop_init paragraph) = [].
Proof.
  unfold paragraph_step.
  destruct (Py.strip paragraph) as [|c p]; [reflexivity|].
  destruct (is_heading (c :: p)).
  - simpl. now destruct (Py.contains _ _).
  - simpl. now destruct (CHUNK_SIZE <? _).
Qed.

Lemma paragraph_chunks_clean text book_name :
  paragraph_chunks book_name (clean_text text)
  = final_flush book_name
      (paragraph_step book_name loop_init (clean_text text)).
Proof.
  unfold paragraph_chunks, paragraph_loop.
  now rewrite clean_text_one_paragraph.
Qed.

(** The paragraph pass of [chunk_text] returns at most one passage. *)
Lemma paragraph_chunks_at_most_one raw book_name :
  length (paragraph_chunks book_name (clean_text raw)) <= 1.
Proof.
  rewrite paragraph_chunks_clean. unfold final_flush.
  destruct (MIN_CHUNK_SIZE <=? _); cbn [flush chunks];
    rewrite first_step_no_chunk; simpl; lia.
Qed.

Lemma paragraph_chunks_clean_floor raw book_name c :
  In c (paragraph_chunks book_name (clean_text raw)) ->
  MIN_CHUNK_SIZE <= length (text c).
Proof.
  rewrite paragraph_chunks_clean. intros H.
  apply final_flush_In in H. rewrite first_step_no_chunk in H.
  destruct H as [[]|[_ H]]. exact H.
Qed.

End ChunkerFacts.

(** ** The character-stride pass *)


Section Windows.
Variables (size step floor : nat) (content : str).
Hypothesis step_pos : 0 < step.
Hypothesis floor_pos : 0 < floor.

Local Abbreviation window := (window_at size content).
Local Abbreviation kept := (is_kept floor).

Lemma window_length i : length (window i) = Nat.min size (length content - i).
Proof. unfold window, Py.slice. now rewrite length_firstn, length_skipn. Qed.

Lemma window_past_end i : length content <= i -> kept (window i) = false.
Proof.
  intros H. unfold kept. rewrite window_length. apply Nat.leb_gt. lia.
Qed.

Lemma filter_none {A} (p : A -> bool) l :
  (forall x, In x l -> p x = false) -> filter p l = [].
Proof.
  induction l as [|a l IH]; intros H; simpl; [reflexivity|].
  rewrite (H a) by now left. apply IH. intros x Hx. apply H. now right.
Qed.

Lemma windows_past_end k n :
  length content <= k * step ->
  filter kept (map (fun j => window (j * step)) (seq k n)) = [].
Proof.
  intros H. apply filter_none. intros w Hw.
  apply in_map_iff in Hw. destruct Hw as (j & <- & Hj).
  apply in_seq in Hj. apply window_past_end. nia.
Qed.

(** The indices [range] produces are the multiples of [step] below the
    length; whatever bound [n] is used on the multiples, the windows
    kept are the same. *)
Lemma range_windows : forall fuel k n,
  length content <= (k + fuel) * step ->
  length content <= (k + n) * step ->
  filter kept (map window (Py.range_from fuel (k * step) (length content) step))
  = filter kept (map (fun j => window (j * step)) (seq k n)).
Proof.
  induction fuel as [|fuel IH]; intros k n Hf Hn; cbn [Py.range_from].
  - rewrite windows_past_end; [reflexivity|].
    now rewrite Nat.add_0_r in Hf.
  - destruct (k * step <? length content) eqn:E.
    + apply Nat.ltb_lt in E. destruct n as [|n].
      * rewrite Nat.add_0_r in Hn. lia.
      * cbn [seq map filter].
        replace (k * step + step) with (S k * step) by lia.
        rewrite (IH (S k) n).
        -- reflexivity.
        -- now replace (S k + fuel) with (k + S fuel) by lia.
        -- now replace (S k + n) with (k + S n) by lia.
    + apply Nat.ltb_ge in E. now rewrite windows_past_end.
Qed.

Lemma range_windows_all :
  filter kept (map window (Py.range 0 (length content) step))
  = windows size step floor content.
Proof.
  unfold Py.range, windows.
  change 0 with (0 * step) at 1.
  rewrite (range_windows (length content) 0 (length content)); [reflexivity| |];
    simpl; nia.
Qed.

(** When the floor is no smaller than the overlap of two consecutive
    windows, a window followed by a kept one is a full window. *)
Hypothesis overlap_small : size <= step + floor.

Lemma kept_windows_full : forall n k ws w,
  filter kept (map (fun j => window (j * step)) (seq k n)) = ws ++ [w] ->
  Forall (fun x => length x = size) ws.
Proof.
  induction n as [|n IH]; intros k ws w H; cbn [seq map filter] in H.
  - now destruct ws.
  - destruct (kept (window (k * step))) eqn:E.
    + destruct ws as [|x ws]; [constructor|].
      injection H as <- H. constructor; [|now apply (IH (S k) ws w)].
      assert (Hw : In w (ws ++ [w])) by (apply in_or_app; right; now left).
      rewrite <- H in Hw. apply filter_In in Hw. destruct Hw as [Hw Hk].
      apply in_map_iff in Hw. destruct Hw as (j & <- & Hj).
      apply in_seq in Hj. unfold kept in Hk. apply Nat.leb_le in Hk.
      rewrite window_length in *. nia.
    + now apply (IH (S k) ws w).
Qed.

Lemma windows_full ws w :
  windows size step floor content = ws ++ [w] ->
  Forall (fun x => length x = size) ws.
Proof. apply kept_windows_full. Qed.

End Windows.

Section StrideFacts.
Context {U : UnicodeData}.

Lemma stride_fold_texts book_name content l : forall st,
  map text (fst (fold_left (stride_step book_name content) l st))
  = map text (fst st)
    ++ filter (fun w => MIN_CHUNK_SIZE <=? length w)
         (map (fun i => Py.slice i CHUNK_SIZE content) l).
Proof.
  induction l as [|i l IH]; intros [cs n]; cbn [fold_left map filter].
  - now rewrite app_nil_r.
  - rewrite IH. unfold stride_step.
    destruct (MIN_CHUNK_SIZE <=? length (Py.slice i CHUNK_SIZE content));
      cbn [fst]; [|reflexivity].
    now rewrite map_app, <- app_assoc.
Qed.

Lemma stride_chunks_texts book_name content :
  map text (stride_chunks book_name content) = stride_windows content.
Proof.
  unfold stride_chunks. rewrite stride_fold_texts. cbn [fst map app].
  apply range_windows_all; unfold CHUNK_SIZE, CHUNK_OVERLAP, MIN_CHUNK_SIZE; lia.
Qed.

Lemma stride_windows_full content ws w :
  stride_windows content = ws ++ [w] ->
  Forall (fun x => length x = CHUNK_SIZE) ws.
Proof.
  apply windows_full;
    unfold CHUNK_SIZE, CHUNK_OVERLAP, MIN_CHUNK_SIZE; lia.
Qed.

Lemma stride_windows_floor content w :
  In w (stride_windows content) -> MIN_CHUNK_SIZE <= length w.
Proof.
  unfold stride_windows, windows. intros H.
  apply filter_In in H. now apply Nat.leb_le.
Qed.

End StrideFacts.

(** ** The claims on normalisation and chunking *)

Lemma ids_nth (l : list Chunk) : forall s k c,
  ids l = seq s (length l) -> nth_error l k = Some c ->
  chunk_id (metadata c) = s + k.
Proof.
  induction l as [|a l IH]; intros s k c H Hk.
  - now destruct k.
  - simpl in H. injection H as Ha H. destruct k as [|k]; simpl in Hk.
    + injection Hk as <-. lia.
    + rewrite (IH (S s) k c H Hk). lia.
Qed.

(** Given paragraphs of its own, the loop can flush a text two characters
    short of the floor: at a heading (and at the size limit) the test is
    on the accumulator with its trailing separator, the text is the
    accumulator stripped.  From [chunk_text] the loop never receives more
    than one paragraph ([clean_text_one_paragraph]), so only the final
    flush, which tests the stripped length, is ever reached. *)
Lemma loop_flush_tests_unstripped_length :
  map (fun c => length (text c))
    (chunks (paragraph_loop (U := ascii_data) book0
               [rep 298 "a"; lit "CHAPTER 2"]))
  = [298].
Proof. vm_compute. reflexivity. Qed.

(** C1.  On the text "A", blank line, "B" the normaliser returns "A B":
    the first substitution has replaced the paragraph separator by one
    space, and the split on the separator returns the whole text as one
    paragraph instead of the two paragraphs of the input. *)
Theorem clean_text_joins_paragraphs (U : UnicodeData) :
  clean_text (lit "A" ++ PARA ++ lit "B") = lit "A B"
  /\ Py.split PARA (clean_text (lit "A" ++ PARA ++ lit "B")) = [lit "A B"]
  /\ Py.split PARA (lit "A" ++ PARA ++ lit "B") = [lit "A"; lit "B"].
Proof. repeat split; vm_compute; reflexivity. Qed.

(** C8.  A bare page-number line and a "Page N" footer line of the input
    are still in the output of the normaliser, joined to their
    neighbours: by the time the two page patterns are tried no line feed
    is left for them to match. *)
Theorem clean_text_keeps_page_numbers (U : UnicodeData) :
  clean_text (lit "Intro" ++ [NL] ++ lit "12" ++ [NL] ++ lit "Text")
  = lit "Intro 12 Text"
  /\ clean_text (lit "Intro" ++ [NL] ++ lit "Page 7" ++ [NL] ++ lit "Text")
     = lit "Intro Page 7 Text".
Proof. split; vm_compute; reflexivity. Qed.

(** C2.  The result of [chunk_text] is that of the character-stride pass
    exactly when the paragraph pass gave fewer than 5 passages and the
    cleaned text is longer than [2 * CHUNK_SIZE], and that of the
    paragraph pass otherwise.  In the first case the texts returned are
    the windows [content[i : i + CHUNK_SIZE]], [i] a multiple of
    [CHUNK_SIZE - CHUNK_OVERLAP], without those shorter than
    [MIN_CHUNK_SIZE]; all of them but possibly the last have exactly
    [CHUNK_SIZE] characters. *)
Theorem chunk_text_fallback (U : UnicodeData) (raw book_name : str) :
  let content := clean_text raw in
  let paragraphs := paragraph_chunks book_name content in
  (length paragraphs < 5 /\ 2 * CHUNK_SIZE < length content ->
   map text (chunk_text raw book_name) = stride_windows content
   /\ (forall ws w, map text (chunk_text raw book_name) = ws ++ [w] ->
       Forall (fun x => length x = CHUNK_SIZE) ws)
   /\ (forall w, In w (map text (chunk_text raw book_name)) ->
       MIN_CHUNK_SIZE <= length w))
  /\ (~ (length paragraphs < 5 /\ 2 * CHUNK_SIZE < length content) ->
      chunk_text raw book_name = paragraphs).
Proof.
  intros content paragraphs. unfold chunk_text. fold content. fold paragraphs.
  unfold fallback. split.
  - intros [H1 H2].
    apply Nat.ltb_lt in H1. rewrite H1.
    rewrite Nat.mul_comm in H2. apply Nat.ltb_lt in H2. rewrite H2.
    cbn [andb]. rewrite stride_chunks_texts.
    split; [reflexivity|]. split.
    + apply stride_windows_full.
    + apply stride_windows_floor.
  - intros H.
    destruct (length paragraphs <? 5) eqn:E1; [|reflexivity].
    destruct (CHUNK_SIZE * 2 <? length content) eqn:E2; [|reflexivity].
    exfalso. apply H. apply Nat.ltb_lt in E1, E2. split; [assumption|].
    now rewrite Nat.mul_comm.
Qed.

(** C3.  Every passage the paragraph pass of [chunk_text] produces has a
    text of at least [MIN_CHUNK_SIZE] characters; so has every passage
    [chunk_text] returns when it keeps the paragraph pass. *)
Theorem paragraph_passages_meet_floor (U : UnicodeData)
  (raw book_name : str) (c : Chunk) :
  (In c (paragraph_chunks book_name (clean_text raw)) ->
   MIN_CHUNK_SIZE <= length (text c))
  /\ (fallback (paragraph_chunks book_name (clean_text raw)) (clean_text raw)
      = false ->
      In c (chunk_text raw book_name) -> MIN_CHUNK_SIZE <= length (text c)).
Proof.
  split.
  - apply paragraph_chunks_clean_floor.
  - intros H. unfold chunk_text. rewrite H.
    apply paragraph_chunks_clean_floor.
Qed.

(** C6.  The passage at position [k] of the list [chunk_text] returns has
    [chunk_id] [k], whichever pass produced the list. *)
Theorem chunk_ids_sequential (U : UnicodeData) (raw book_name : str)
  (k : nat) (c : Chunk) :
  nth_error (chunk_text raw book_name) k = Some c ->
  chunk_id (metadata c) = k.
Proof.
  unfold chunk_text. destruct (fallback _ _); intros H.
  - change k with (0 + k). eapply ids_nth; [apply stride_chunks_ids|exact H].
  - change k with (0 + k). eapply ids_nth; [apply paragraph_chunks_ids|exact H].
Qed.

(** C10.  When the cleaned text is empty (as it is for a raw text made of
    whitespace only) [chunk_text] returns the empty list, and the
    condition of the fallback is false. *)
Theorem chunk_text_empty (U : UnicodeData) (raw book_name : str) :
  ((forall c, In c raw -> Py.isspace c = true) -> clean_text raw = [])
  /\ (clean_text raw = [] ->
      chunk_text raw book_name = []
      /\ fallback (paragraph_chunks book_name (clean_text raw))
           (clean_text raw) = false).
Proof.
  split.
  - apply clean_text_all_space.
  - intros H. unfold chunk_text. rewrite H. split; reflexivity.
Qed.

(** ** Headings and the size limit *)

Module HeadingFacts.
Import Re ReFacts.

Lemma startswith_spec : forall p s,
  Py.startswith p s = true <-> exists b, s = p ++ b.
Proof.
  induction p as [|a p IH]; intros s; simpl.
  - split; [intros _; now exists s | reflexivity].
  - destruct s as [|c s].
    + split; [discriminate | intros [b H]; discriminate H].
    + rewrite andb_true_iff, N.eqb_eq, IH. split.
      * intros [-> [b ->]]. now exists b.
      * intros [b H]. injection H as -> ->. split; [reflexivity | now exists b].
Qed.

Lemma contains_spec needle : forall hay,
  Py.contains needle hay = true <-> exists a b, hay = a ++ needle ++ b.
Proof.
  induction hay as [|c hay IH].
  - simpl. rewrite orb_false_r, startswith_spec. split.
    + intros [b H]. now exists [], b.
    + intros (a & b & H). destruct a; [now exists b | discriminate H].
  - cbn [Py.contains]. rewrite orb_true_iff, startswith_spec, IH. split.
    + intros [[b H]|(a & b & H)].
      * now exists [], b.
      * exists (c :: a), b. now rewrite H.
    + intros (a & b & H). destruct a as [|d a].
      * left. now exists b.
      * right. injection H as _ H. now exists a, b.
Qed.

Lemma exec_Star A (a : regex) s (k : str -> option A) :
  exec (Star a) s k = star_loop (exec a) k (length s) s.
Proof. reflexivity. Qed.

(** Greedy repetition of a character class followed by [k]: what it
    passes over is in the class ... *)
Lemma star_Chr_sound A q (k : str -> option A) : forall n s x,
  star_loop (exec (Chr q)) k n s = Some x ->
  exists ds s', s = ds ++ s' /\ (forall d, In d ds -> q d = true)
                /\ k s' = Some x.
Proof.
  induction n as [|n IH]; intros s x H; cbn [star_loop] in H.
  - exists [], s. repeat split; [easy|assumption].
  - destruct (exec (Chr q) s _) as [y|] eqn:E.
    + injection H as ->. cbn [exec] in E.
      destruct s as [|c s]; [discriminate|].
      destruct (q c) eqn:Hc; [|discriminate].
      destruct (length s <? length (c :: s)); [|discriminate].
      apply IH in E. destruct E as (ds & s' & -> & Hds & E).
      exists (c :: ds), s'. repeat split; [|assumption].
      intros d [<-|Hd]; [assumption | now apply Hds].
    + exists [], s. repeat split; [easy|assumption].
Qed.

(** ... and it succeeds whenever a run of the class leads to a point
    where [k] does. *)
Lemma star_Chr_complete A q (k : str -> option A) : forall ds s' x,
  (forall d, In d ds -> q d = true) -> k s' = Some x ->
  exec (Star (Chr q)) (ds ++ s') k <> None.
Proof.
  induction ds as [|d ds IH]; intros s' x Hds Hk; rewrite exec_Star.
  - cbn [app]. destruct (length s') as [|n]; cbn [star_loop]; [congruence|].
    destruct (exec (Chr q) s' _); congruence.
  - cbn [app length star_loop]. cbn [exec]. rewrite (Hds d) by now left.
    replace (length (ds ++ s') <? S (length (ds ++ s'))) with true
      by (symmetry; apply Nat.ltb_lt; lia).
    specialize (IH s' x (fun e He => Hds e (or_intror He)) Hk).
    rewrite exec_Star in IH.
    destruct (star_loop _ k _ (ds ++ s')); [discriminate|contradiction].
Qed.

End HeadingFacts.

Section HeadingRule.
Context {U : UnicodeData}.
Import Re HeadingFacts.


Lemma digits_dot_spec p :
  match_ (Seq (Plus digit) (Chr (one (ch ".")))) p <> None <-> digits_dot p.
Proof.
  unfold match_, Plus, digit. cbn [exec]. split.
  - destruct p as [|d p]; [congruence|].
    destruct (isdecimal d) eqn:Hd; [|congruence].
    match goal with
    | |- ?e <> None -> _ => destruct e as [x|] eqn:E; [intros _|congruence]
    end.
    apply star_Chr_sound in E. destruct E as (ds & s' & -> & Hds & E).
    destruct s' as [|c rest]; [discriminate|].
    destruct (one (ch ".") c) eqn:Hc; [|discriminate].
    apply N.eqb_eq in Hc. subst c.
    exists (d :: ds), rest. split; [discriminate|]. split; [|reflexivity].
    intros e [<-|He]; [assumption | now apply Hds].
  - intros (ds & rest & Hne & Hds & ->).
    destruct ds as [|d ds]; [contradiction|].
    cbn [app]. rewrite (Hds d) by now left.
    apply (star_Chr_complete str isdecimal
             (fun s' => exec (Chr (one (ch "."))) s' Some) ds
             (ch "." :: rest) rest).
    + intros e He. apply Hds. now right.
    + reflexivity.
Qed.

Lemma is_heading_spec p : is_heading p = true <-> heading p.
Proof.
  unfold is_heading, heading, contains_ci.
  rewrite andb_true_iff, !orb_true_iff, Nat.ltb_lt, !contains_spec,
    <- digits_dot_spec.
  destruct (match_ _ p); intuition congruence.
Qed.

End HeadingRule.

Lemma split_ws_from_words : forall s cur w,
  (forall c, In c cur -> Py.isspace c = false) ->
  In w (Py.split_ws_from cur s) ->
  w <> [] /\ (forall c, In c w -> Py.isspace c = false).
Proof.
  induction s as [|c s IH]; intros cur w Hcur H; cbn [Py.split_ws_from] in H.
  - destruct cur as [|a cur]; [contradiction|].
    destruct H as [<-|[]]. split; [discriminate|assumption].
  - destruct (Py.isspace c) eqn:Hc.
    + destruct cur as [|a cur].
      * apply (IH [] w); [intros ? []|assumption].
      * destruct H as [<-|H]; [split; [discriminate|assumption]|].
        apply (IH [] w); [intros ? []|assumption].
    + apply (IH (cur ++ [c]) w); [|assumption].
      intros d Hd. apply in_app_or in Hd.
      destruct Hd as [Hd|[<-|[]]]; [now apply Hcur|assumption].
Qed.

(** The words [s.split()] returns are non-empty and free of whitespace. *)
Lemma split_ws_words s w :
  In w (Py.split_ws s) ->
  w <> [] /\ (forall c, In c w -> Py.isspace c = false).
Proof. apply split_ws_from_words. intros ? []. Qed.

Lemma last_n_suffix {A} n (l : list A) :
  exists skipped, l = skipped ++ Py.last_n n l
                  /\ length (Py.last_n n l) = Nat.min n (length l).
Proof.
  unfold Py.last_n. exists (firstn (length l - n) l). split.
  - now rewrite firstn_skipn.
  - rewrite length_skipn. lia.
Qed.

(** C4.  A stripped, non-empty paragraph is taken for a heading exactly
    when it has fewer than 100 characters and either its lower-cased form
    contains "chapter" or "section", or it is upper-case, or it starts
    with one or more digits followed by a full stop.  On a heading the
    loop at most flushes the accumulator (under the labels in force
    before the heading) and empties it: no text of the heading enters the
    accumulator or a passage.  The heading becomes the chapter label when
    its lower-cased form contains "chapter", the section label
    otherwise. *)
Theorem heading_rule (U : UnicodeData) (book_name : str) (st : Loop)
  (paragraph : str) :
  let p := Py.strip paragraph in
  let st' := paragraph_step book_name st paragraph in
  p <> [] ->
  (is_heading p = true <-> heading p)
  /\ (is_heading p = true ->
      ((length (current_chunk st) < MIN_CHUNK_SIZE
        /\ chunks st' = chunks st
        /\ current_chunk st' = current_chunk st
        /\ chunk_count st' = chunk_count st)
       \/ (MIN_CHUNK_SIZE <= length (current_chunk st)
           /\ chunks st'
              = chunks st ++
                  [mkChunk (Py.strip (current_chunk st))
                     (mkMetadata book_name (current_chapter st)
                        (current_section st) (chunk_count st))]
           /\ current_chunk st' = []
           /\ chunk_count st' = S (chunk_count st)))
      /\ (contains_ci "chapter" p ->
          current_chapter st' = p /\ current_section st' = [])
      /\ (~ contains_ci "chapter" p ->
          current_chapter st' = current_chapter st
          /\ current_section st' = p)).
Proof.
  intros p st' Hne. split; [apply is_heading_spec|]. intros Hh.
  subst st'. unfold paragraph_step. fold p.
  destruct p as [|c q] eqn:Ep; [contradiction|]. rewrite Hh.
  unfold contains_ci. rewrite <- HeadingFacts.contains_spec.
  destruct (MIN_CHUNK_SIZE <=? length (current_chunk st)) eqn:E1;
    destruct (Py.contains (lit "chapter") (str_lower (c :: q))) eqn:E2;
    cbn [chunks current_chunk chunk_count current_chapter current_section
         flush set_current_chunk];
    (split;
     [first [ apply Nat.leb_le in E1; right; now repeat split
            | apply Nat.leb_gt in E1; left; now repeat split ]
     | split; [intros H | intros H];
       first [now split | discriminate H | contradiction ]]).
Qed.

(** C5.  For a stripped, non-empty paragraph that is no heading and with
    which the accumulator would pass [CHUNK_SIZE]: an accumulator of at
    least [MIN_CHUNK_SIZE] characters is flushed and the new accumulator
    is made of the last 30 words of the old one (all of them when there
    are fewer), joined by single spaces, and the paragraph; a shorter
    accumulator just receives the paragraph.  A passage of the paragraph
    pass can therefore be longer than [CHUNK_SIZE]. *)
Theorem size_limit_step (U : UnicodeData) (book_name : str) (st : Loop)
  (paragraph : str) :
  let p := Py.strip paragraph in
  let cur := current_chunk st in
  let st' := paragraph_step book_name st paragraph in
  (p <> [] -> is_heading p = false ->
   CHUNK_SIZE < length cur + length p + 2 ->
   (MIN_CHUNK_SIZE <= length cur ->
    exists skipped words,
      Py.split_ws cur = skipped ++ words
      /\ length words = Nat.min 30 (length (Py.split_ws cur))
      /\ (forall w, In w words ->
            w <> [] /\ (forall c, In c w -> Py.isspace c = false))
      /\ st' = mkLoop
                 (chunks st ++
                    [mkChunk (Py.strip cur)
                       (mkMetadata book_name (current_chapter st)
                          (current_section st) (chunk_count st))])
                 (Py.join [SP] words ++ PARA ++ p ++ PARA)
                 (current_chapter st) (current_section st)
                 (S (chunk_count st)))
   /\ (length cur < MIN_CHUNK_SIZE ->
       st' = mkLoop (chunks st) (cur ++ p ++ PARA)
               (current_chapter st) (current_section st) (chunk_count st)))
  /\ (exists c,
        chunk_text (concat (repeat (lit "abcd ") 300)) book_name = [c]
        /\ CHUNK_SIZE < length (text c)).
Proof.
  intros p cur st'. split.
  - intros Hne Hh Hsize. subst st'. unfold paragraph_step. fold p. fold cur.
    destruct p as [|c q] eqn:Ep; [contradiction|]. rewrite Hh.
    apply Nat.ltb_lt in Hsize. rewrite Hsize. split; intros Hcur.
    + apply Nat.leb_le in Hcur. rewrite Hcur.
      destruct (last_n_suffix 30 (Py.split_ws cur)) as (skipped & E & L).
      exists skipped, (Py.last_n 30 (Py.split_ws cur)).
      split; [assumption|]. split; [assumption|]. split; [|reflexivity].
      intros w Hw. apply (split_ws_words cur). rewrite E.
      apply in_or_app. now right.
    + apply Nat.leb_gt in Hcur. rewrite Hcur. reflexivity.
  - exists (mkChunk (concat (repeat (lit "abcd ") 299) ++ lit "abcd")
              (mkMetadata book_name (lit "Introduction") [] 0)).
    split; [vm_compute; reflexivity|].
    apply Nat.ltb_lt. vm_compute. reflexivity.
Qed.

(** ** Chunk identity *)

Module IdFacts.

(** *** The content string *)

Lemma lit_inj (a b : string) : lit a = lit b -> a = b.
Proof.
  unfold lit. intros H.
  rewrite <- (string_of_list_ascii_of_string a),
          <- (string_of_list_ascii_of_string b).
  f_equal. revert H.
  generalize (list_ascii_of_string a) (list_ascii_of_string b).
  induction l as [|x l IH]; intros [|y l'] H; try discriminate H.
  - reflexivity.
  - simpl in H. injection H as Hx H. f_equal; [|now apply IH].
    now rewrite <- (ascii_N_embedding x), <- (ascii_N_embedding y), Hx.
Qed.

Lemma str_of_nat_inj n m : Py.str_of_nat n = Py.str_of_nat m -> n = m.
Proof.
  unfold Py.str_of_nat. intros H. apply lit_inj in H.
  apply (f_equal NilEmpty.uint_of_string) in H.
  rewrite !NilEmpty.usu in H. injection H as H.
  apply (f_equal Nat.of_uint) in H. now rewrite !Unsigned.of_to in H.
Qed.


Lemma string_of_uint_digits d c :
  In c (lit (NilEmpty.string_of_uint d)) -> is_digit c.
Proof.
  unfold is_digit.
  induction d; simpl; intros H; try contradiction;
    (destruct H as [<-|H]; [vm_compute; split; discriminate | now apply IHd]).
Qed.

Lemma str_of_nat_digits n c : In c (Py.str_of_nat n) -> is_digit c.
Proof. apply string_of_uint_digits. Qed.

(** A separator that occurs in neither field delimits them. *)
Lemma split_at_separator {A} (x : A) : forall l1 l2 r1 r2,
  ~ In x l1 -> ~ In x l2 -> l1 ++ x :: r1 = l2 ++ x :: r2 ->
  l1 = l2 /\ r1 = r2.
Proof.
  induction l1 as [|a l1 IH]; intros [|b l2] r1 r2 H1 H2 H; simpl in H.
  - injection H as H. now split.
  - injection H as <- _. exfalso. apply H2. now left.
  - injection H as -> _. exfalso. apply H1. now left.
  - injection H as -> H. apply IH in H.
    + destruct H as [-> ->]. now split.
    + intros Hin. apply H1. now right.
    + intros Hin. apply H2. now right.
Qed.

(** For one book, the content determines the position and the leading
    text. *)
Lemma content_fields_inj (b : str) n1 n2 (t1 t2 : str) :
  b ++ lit "_" ++ Py.str_of_nat n1 ++ lit "_" ++ t1
  = b ++ lit "_" ++ Py.str_of_nat n2 ++ lit "_" ++ t2 ->
  n1 = n2 /\ t1 = t2.
Proof.
  intros H. apply app_inv_head in H.
  change (lit "_") with [95%N] in H. cbn [app] in H. injection H as H.
  apply split_at_separator in H.
  - destruct H as [H ->]. apply str_of_nat_inj in H. now split.
  - intros Hin. apply str_of_nat_digits in Hin. now destruct Hin.
  - intros Hin. apply str_of_nat_digits in Hin. now destruct Hin.
Qed.

Lemma id_content_inj c1 c2 :
  book (metadata c1) = book (metadata c2) ->
  id_content c1 = id_content c2 ->
  chunk_id (metadata c1) = chunk_id (metadata c2)
  /\ firstn 100 (text c1) = firstn 100 (text c2).
Proof.
  unfold id_content. intros -> H. now apply content_fields_inj in H.
Qed.

(** *** UTF-8 *)


Lemma cons_inj {A} (a b : A) l l' : a :: l = b :: l' -> a = b /\ l = l'.
Proof. intros H. now injection H. Qed.

Lemma utf8_char_inj c1 c2 b1 b2 r1 r2 :
  utf8_char c1 = Some b1 -> utf8_char c2 = Some b2 ->
  b1 ++ r1 = b2 ++ r2 -> c1 = c2 /\ r1 = r2.
Proof.
  unfold utf8_char. intros H1 H2.
  repeat match type of H1 with
         | context [(?a <? ?b)%N] => destruct (N.ltb_spec a b)
         | context [(?a <=? ?b)%N] => destruct (N.leb_spec a b)
         end;
    cbn [andb] in H1; try discriminate H1;
    apply (f_equal (fun o => match o with Some l => l | None => [] end)) in H1;
    subst b1;
    repeat match type of H2 with
           | context [(?a <? ?b)%N] => destruct (N.ltb_spec a b)
           | context [(?a <=? ?b)%N] => destruct (N.leb_spec a b)
           end;
    cbn [andb] in H2; try discriminate H2;
    apply (f_equal (fun o => match o with Some l => l | None => [] end)) in H2;
    subst b2;
    cbn [app]; intros E;
    repeat match goal with
           | H : _ :: _ = _ :: _ |- _ =>
               apply cons_inj in H; let H' := fresh in destruct H as [H' H]
           end;
    split; solve [assumption | reflexivity | euclid].
Qed.

Lemma encode_inj : forall s1 s2 b,
  encode s1 = Some b -> encode s2 = Some b -> s1 = s2.
Proof.
  induction s1 as [|c1 s1 IH]; intros [|c2 s2] b H1 H2;
    cbn [encode] in H1, H2.
  - reflexivity.
  - injection H1 as <-.
    destruct (utf8_char c2) as [x|] eqn:E2; [|discriminate].
    destruct (encode s2); [|discriminate]. injection H2 as H2.
    unfold utf8_char in E2.
    repeat match type of E2 with
           | context [if ?c then _ else _] => destruct c
           end; try discriminate E2; injection E2 as <-; discriminate H2.
  - injection H2 as <-.
    destruct (utf8_char c1) as [x|] eqn:E1; [|discriminate].
    destruct (encode s1); [|discriminate]. injection H1 as H1.
    unfold utf8_char in E1.
    repeat match type of E1 with
           | context [if ?c then _ else _] => destruct c
           end; try discriminate E1; injection E1 as <-; discriminate H1.
  - destruct (utf8_char c1) as [x1|] eqn:E1; [|discriminate].
    destruct (encode s1) as [y1|] eqn:F1; [|discriminate].
    destruct (utf8_char c2) as [x2|] eqn:E2; [|discriminate].
    destruct (encode s2) as [y2|] eqn:F2; [|discriminate].
    injection H1 as <-. injection H2 as H2.
    destruct (utf8_char_inj _ _ _ _ _ _ E2 E1 H2) as [-> ->].
    f_equal. now apply (IH s2 y1).
Qed.

Lemma encode_ascii : forall s,
  (forall c, In c s -> (c < 128)%N) -> encode s = Some s.
Proof.
  induction s as [|c s IH]; intros H; cbn [encode]; [reflexivity|].
  rewrite IH by (intros d Hd; apply H; now right).
  unfold utf8_char. destruct (N.ltb_spec c 128); [reflexivity|].
  specialize (H c (or_introl eq_refl)). lia.
Qed.

End IdFacts.

Module MD5Facts.
Import MD5.
Local Open Scope N_scope.



Lemma w32_lt x : w32 x < modulus.
Proof. unfold w32, modulus. apply N.mod_lt. discriminate. Qed.

Lemma compress_bounded st block : bounded (compress st block).
Proof.
  unfold compress. destruct st as [[[a0 b0] c0] d0].
  destruct (fold_left _ _ _) as [[[A B] C] D].
  repeat split; apply w32_lt.
Qed.

Lemma process_bounded : forall n bytes st,
  bounded st -> bounded (process n bytes st).
Proof.
  induction n as [|n IH]; intros bytes st H; cbn [process]; [assumption|].
  apply IH, compress_bounded.
Qed.

Lemma md5_bounded msg : bounded (md5 msg).
Proof.
  unfold md5. apply process_bounded. unfold init, bounded, modulus.
  repeat split; reflexivity.
Qed.


Lemma number_lt st : bounded st -> number st < digests.
Proof.
  destruct st as [[[a b] c] d]. unfold bounded, number, modulus, digests.
  lia.
Qed.

Lemma number_inj s1 s2 :
  bounded s1 -> bounded s2 -> number s1 = number s2 -> s1 = s2.
Proof.
  destruct s1 as [[[a b] c] d], s2 as [[[a' b'] c'] d'].
  unfold bounded, number, modulus. intros H1 H2 H.
  assert (a = a' /\ b = b' /\ c = c' /\ d = d') as (-> & -> & -> & ->) by lia.
  reflexivity.
Qed.

Lemma hexdigest_md5 m1 m2 : md5 m1 = md5 m2 -> hexdigest m1 = hexdigest m2.
Proof. unfold hexdigest. now intros ->. Qed.

End MD5Facts.

(** Among [n + 1] values below [n] two are equal. *)
Lemma find_value (f : nat -> nat) v : forall m,
  (exists i, i <= m /\ f i = v) \/ (forall i, i <= m -> f i <> v).
Proof.
  induction m as [|m [(i & Hi & E)|IH]].
  - destruct (Nat.eq_dec (f 0) v) as [E|E].
    + left. now exists 0.
    + right. intros i Hi. now replace i with 0 by lia.
  - left. exists i. split; [lia|assumption].
  - destruct (Nat.eq_dec (f (S m)) v) as [E|E].
    + left. now exists (S m).
    + right. intros i Hi. destruct (Nat.eq_dec i (S m)) as [->|Hne];
        [assumption | apply IH; lia].
Qed.

Lemma pigeonhole : forall n (f : nat -> nat),
  (forall i, i <= n -> f i < n) ->
  exists i j, i < j /\ j <= n /\ f i = f j.
Proof.
  induction n as [|n IH]; intros f H.
  - specialize (H 0 (Nat.le_refl 0)). lia.
  - destruct (find_value f (f (S n)) n) as [(i & Hi & E)|Hfresh].
    + exists i, (S n). repeat split; [lia|lia|assumption].
    + set (g := fun i => if f i <? f (S n) then f i else f i - 1).
      destruct (IH g) as (i & j & Hij & Hj & E).
      * intros i Hi. unfold g.
        pose proof (H i (Nat.le_trans _ _ _ Hi (Nat.le_succ_diag_r n))).
        pose proof (H (S n) (Nat.le_refl _)).
        pose proof (Hfresh i Hi).
        destruct (Nat.ltb_spec (f i) (f (S n))); lia.
      * exists i, j. repeat split; [assumption|lia|].
        unfold g in E.
        pose proof (Hfresh i ltac:(lia)). pose proof (Hfresh j ltac:(lia)).
        destruct (Nat.ltb_spec (f i) (f (S n)));
          destruct (Nat.ltb_spec (f j) (f (S n))); lia.
Qed.

Lemma pigeonhole_N (bound : N) (f : nat -> N) :
  (forall i, (f i < bound)%N) -> exists i j, i < j /\ f i = f j.
Proof.
  intros H.
  destruct (pigeonhole (N.to_nat bound) (fun i => N.to_nat (f i)))
    as (i & j & Hij & _ & E).
  - intros i _. specialize (H i). lia.
  - exists i, j. split; [assumption | now apply N2Nat.inj].
Qed.

Section IdentityFacts.
Import IdFacts MD5Facts.


Lemma probe_id n :
  generate_chunk_id (probe n) = Some (MD5.hexdigest (id_content (probe n))).
Proof.
  unfold generate_chunk_id. rewrite encode_ascii; [reflexivity|].
  unfold id_content, probe. cbn [book chunk_id metadata text firstn app].
  change (lit "_") with [95%N]. intros c Hc. cbn [app] in Hc.
  destruct Hc as [<-|Hc]; [reflexivity|].
  apply in_app_or in Hc. destruct Hc as [Hc|[<-|[]]]; [|reflexivity].
  apply str_of_nat_digits in Hc. unfold is_digit in Hc. lia.
Qed.

(** Two positions of that book share an id. *)
Lemma probe_collision :
  exists i j, i < j /\ generate_chunk_id (probe i) = generate_chunk_id (probe j).
Proof.
  destruct (pigeonhole_N digests
              (fun n => number (MD5.md5 (id_content (probe n)))))
    as (i & j & Hij & E).
  - intros n. apply number_lt, md5_bounded.
  - exists i, j. split; [assumption|].
    apply number_inj in E; try apply md5_bounded.
    rewrite !probe_id. f_equal. now apply hexdigest_md5.
Qed.

End IdentityFacts.

(** C7, as stated.  It is not true that every change of the position or
    of the leading 100 characters changes the id: ids are 128-bit
    digests, so among the passages of one book there are two at different
    positions with the same id. *)
Lemma chunk_ids_collide :
  ~ (forall c1 c2 : Chunk,
       book (metadata c1) = book (metadata c2) ->
       chunk_id (metadata c1) <> chunk_id (metadata c2)
       \/ firstn 100 (text c1) <> firstn 100 (text c2) ->
       generate_chunk_id c1 <> generate_chunk_id c2).
Proof.
  intros H. destruct probe_collision as (i & j & Hij & E).
  apply (H (probe i) (probe j)); [reflexivity| |assumption].
  left. cbn. lia.
Qed.

(** C7, amended.  The id is a function of the book name, the position and
    the first 100 characters of the text.  For one book, a change of the
    position or of those characters changes the content string and its
    UTF-8 encoding, the input of MD5: two such passages have the same id
    only if MD5 gives two different byte strings the same digest. *)
Theorem generate_chunk_id_spec (c1 c2 : Chunk) :
  (book (metadata c1) = book (metadata c2) ->
   chunk_id (metadata c1) = chunk_id (metadata c2) ->
   firstn 100 (text c1) = firstn 100 (text c2) ->
   generate_chunk_id c1 = generate_chunk_id c2)
  /\ (book (metadata c1) = book (metadata c2) ->
      chunk_id (metadata c1) <> chunk_id (metadata c2)
      \/ firstn 100 (text c1) <> firstn 100 (text c2) ->
      id_content c1 <> id_content c2
      /\ forall b1 b2,
           encode (id_content c1) = Some b1 ->
           encode (id_content c2) = Some b2 ->
           b1 <> b2
           /\ (generate_chunk_id c1 = generate_chunk_id c2 ->
               MD5.hexdigest b1 = MD5.hexdigest b2)).
Proof.
  split.
  - intros Hb Hn Ht. unfold generate_chunk_id, id_content.
    now rewrite Hb, Hn, Ht.
  - intros Hb Hd.
    assert (Hc : id_content c1 <> id_content c2).
    { intros E. apply (IdFacts.id_content_inj c1 c2 Hb) in E.
      destruct E as [En Et]. destruct Hd as [Hd|Hd]; contradiction. }
    split; [assumption|]. intros b1 b2 E1 E2. split.
    + intros ->. apply Hc. now apply (IdFacts.encode_inj _ _ b2).
    + unfold generate_chunk_id. rewrite E1, E2. now intros [= ->].
Qed.

(** ** Embedding failures *)

Section PipelineFacts.
Variable vector : Type.
Variable World : Type.
Variable embeddings_create : str -> World -> option vector * World.
Variable pinecone_index : World -> bool * World.
Variable index_upsert : list (Vector vector) -> World -> bool * World.
Variable describe_index_stats : World -> bool * World.

Local Abbreviation outcomes' := (outcomes embeddings_create).
Local Abbreviation create_embedding' := (create_embedding embeddings_create).
Local Abbreviation embed_step' := (embed_step embeddings_create).
Local Abbreviation upsert_batch' :=
  (upsert_batch embeddings_create index_upsert).
Local Abbreviation upsert_to_pinecone' :=
  (upsert_to_pinecone embeddings_create pinecone_index index_upsert
     describe_index_stats).


Lemma create_embedding_result t w tr :
  create_embedding' t (w, tr)
  = (Ok (fst (embeddings_create (embedding_input t) w)),
     (snd (embeddings_create (embedding_input t) w),
      tr ++ [EmbeddingsCreate (embedding_input t)])).
Proof.
  unfold create_embedding, try_except, bind, call_embeddings_create,
    ret, embedding_input.
  cbv zeta.
  destruct (embeddings_create _ w) as [[e|] w']; reflexivity.
Qed.

Lemma outcomes_length : forall batch w,
  length (fst (outcomes' batch w)) = length batch.
Proof.
  induction batch as [|c batch IH]; intros w; cbn [outcomes]; [reflexivity|].
  destruct (embeddings_create _ w) as [o w1].
  specialize (IH w1). destruct (outcomes' batch w1) as [os w2].
  cbn [fst length] in *. now rewrite IH.
Qed.

(** The loop over a batch: every passage is sent to the backend, and
    the vectors collected are those of the passages it embedded. *)
Lemma embed_loop : forall batch vectors w tr,
  Forall has_id batch ->
  foldM embed_step' batch vectors (w, tr)
  = (Ok (vectors ++ embedded batch (fst (outcomes' batch w))),
     (snd (outcomes' batch w),
      tr ++ embed_events batch (fst (outcomes' batch w)))).
Proof.
  induction batch as [|c batch IH]; intros vectors w tr Hid;
    cbn [foldM outcomes].
  - cbn. now rewrite !app_nil_r.
  - inversion Hid as [|? ? Hc Hrest]; subst.
    unfold bind at 1. unfold embed_step at 1. unfold bind at 1.
    rewrite create_embedding_result.
    destruct (embeddings_create (embedding_input (text c)) w) as [[e|] w1];
      cbn [fst snd].
    + unfold has_id in Hc.
      destruct (generate_chunk_id c) as [vector_id|] eqn:E; [|contradiction].
      unfold bind, sleep, ret. rewrite (IH _ w1 _ Hrest).
      destruct (outcomes' batch w1) as [os w2]. cbn [fst snd embedded embed_events].
      unfold vector_of. rewrite E. now rewrite <- !app_assoc.
    + unfold ret. rewrite (IH _ w1 _ Hrest).
      destruct (outcomes' batch w1) as [os w2]. cbn [fst snd embedded embed_events].
      now rewrite <- !app_assoc.
Qed.

(** A failed passage is the one left out. *)
Lemma embedded_skip : forall pre c post (os1 os2 : list (option vector)),
  length os1 = length pre ->
  embedded (pre ++ c :: post) (os1 ++ None :: os2)
  = embedded pre os1 ++ embedded post os2.
Proof.
  induction pre as [|a pre IH]; intros c post [|o os1] os2 H;
    try discriminate H; cbn [app embedded].
  - reflexivity.
  - injection H as H. destruct o as [e|]; rewrite IH by assumption.
    + now rewrite app_assoc.
    + reflexivity.
Qed.

Lemma upsert_batch_result batch w tr :
  Forall has_id batch ->
  upsert_batch' batch (w, tr)
  = let os := fst (outcomes' batch w) in
    let st := (snd (outcomes' batch w), tr ++ embed_events batch os) in
    match embedded batch os with
    | [] => (Ok tt, st)
    | v :: vs =>
        call_bool (IndexUpsert (v :: vs)) (index_upsert (v :: vs)) st
    end.
Proof.
  intros Hid. unfold upsert_batch, bind.
  rewrite (embed_loop batch [] w tr Hid). cbn [app].
  now destruct (embedded batch _).
Qed.


(** One vector for each passage embedded. *)
Lemma embedded_length : forall batch (os : list (option vector)),
  Forall has_id batch -> length os = length batch ->
  length (embedded batch os) = embedded_count os.
Proof.
  unfold embedded_count.
  induction batch as [|c batch IH]; intros [|o os] Hid H;
    try discriminate H; [reflexivity|].
  inversion Hid as [|? ? Hc Hrest]; subst. injection H as H.
  cbn [embedded filter]. destruct o as [e|]; [|now apply IH].
  rewrite length_app, IH by assumption. unfold vector_of, has_id in *.
  now destruct (generate_chunk_id c).
Qed.

(** With a store that answers, nothing raises. *)
Hypothesis pinecone_index_ok : forall w, fst (pinecone_index w) = true.
Hypothesis index_upsert_ok : forall vs w, fst (index_upsert vs w) = true.
Hypothesis describe_index_stats_ok :
  forall w, fst (describe_index_stats w) = true.

Lemma call_bool_ok (ev : Event vector) (f : World -> bool * World) st :
  (forall w, fst (f w) = true) ->
  exists st', call_bool ev f st = (Ok tt, st').
Proof.
  intros H. destruct st as [w tr]. unfold call_bool.
  specialize (H w). destruct (f w) as [[|] w']; [|discriminate H].
  now eexists.
Qed.

Lemma upsert_batch_ok batch st :
  Forall has_id batch -> exists st', upsert_batch' batch st = (Ok tt, st').
Proof.
  intros Hid. destruct st as [w tr]. rewrite upsert_batch_result by assumption.
  cbv zeta. destruct (embedded batch _) as [|v vs]; [now eexists|].
  apply call_bool_ok, index_upsert_ok.
Qed.

Lemma batches_ok : forall bs st,
  Forall (Forall has_id) bs ->
  exists st',
    foldM (fun (_ : unit) batch => upsert_batch' batch) bs tt st = (Ok tt, st').
Proof.
  induction bs as [|b bs IH]; intros st H; cbn [foldM].
  - now eexists.
  - inversion H as [|? ? Hb Hbs]; subst.
    destruct (upsert_batch_ok b st Hb) as [st1 E].
    unfold bind. rewrite E. now apply IH.
Qed.

Lemma slice_In {A} i n (l : list A) x : In x (Py.slice i n l) -> In x l.
Proof.
  unfold Py.slice. intros H.
  rewrite <- (firstn_skipn i l). apply in_or_app. right.
  rewrite <- (firstn_skipn n (skipn i l)). apply in_or_app. now left.
Qed.

Lemma batches_have_ids chunks :
  Forall has_id chunks -> Forall (Forall has_id) (batches chunks).
Proof.
  intros H. unfold batches. apply Forall_forall. intros b Hb.
  apply in_map_iff in Hb. destruct Hb as (i & <- & _).
  apply Forall_forall. intros c Hc. apply slice_In in Hc.
  now apply (proj1 (Forall_forall _ _) H).
Qed.

Lemma upsert_to_pinecone_ok chunks st :
  Forall has_id chunks ->
  exists st', upsert_to_pinecone' chunks st = (Ok true, st').
Proof.
  intros Hid. unfold upsert_to_pinecone, try_except, bind.
  destruct (call_bool_ok PineconeIndex pinecone_index st
              pinecone_index_ok) as [st1 ->].
  destruct (batches_ok (batches chunks) st1 (batches_have_ids chunks Hid))
    as [st2 ->].
  destruct (call_bool_ok DescribeIndexStats describe_index_stats st2
              describe_index_stats_ok) as [st3 ->].
  now eexists.
Qed.

End PipelineFacts.

(** C9.  [create_embedding] never raises: a failure of the backend call
    makes it return [None].  The loop over a batch asks for the embedding
    of every passage in turn whatever the earlier answers, and collects
    one vector for each passage embedded, so that a passage whose
    embedding failed is the only one missing from the vectors of the
    batch, which are submitted in one upsert.  When the store itself
    answers, neither a batch nor the run fails, however many embeddings
    did. *)
Theorem embedding_failure_skips_passage
  (vector World : Type)
  (embeddings_create : str -> World -> option vector * World)
  (pinecone_index : World -> bool * World)
  (index_upsert : list (Vector vector) -> World -> bool * World)
  (describe_index_stats : World -> bool * World) :
  (forall t w tr,
     exists r st',
       create_embedding embeddings_create t (w, tr) = (Ok r, st')
       /\ (fst (embeddings_create (embedding_input t) w) = None -> r = None))
  /\ (forall batch w tr,
       Forall has_id batch ->
       let os := fst (outcomes embeddings_create batch w) in
       let st := (snd (outcomes embeddings_create batch w),
                  tr ++ embed_events batch os) in
       length os = length batch
       /\ length (embedded batch os) = embedded_count os
       /\ foldM (embed_step embeddings_create) batch [] (w, tr)
          = (Ok (embedded batch os), st)
       /\ upsert_batch embeddings_create index_upsert batch (w, tr)
          = match embedded batch os with
            | [] => (Ok tt, st)
            | v :: vs =>
                call_bool (IndexUpsert (v :: vs)) (index_upsert (v :: vs)) st
            end)
  /\ (forall pre c post (os1 os2 : list (option vector)),
       length os1 = length pre ->
       embedded (pre ++ c :: post) (os1 ++ None :: os2)
       = embedded pre os1 ++ embedded post os2)
  /\ ((forall w, fst (pinecone_index w) = true) ->
      (forall vs w, fst (index_upsert vs w) = true) ->
      (forall w, fst (describe_index_stats w) = true) ->
      forall chunks st,
        Forall has_id chunks ->
        (forall batch st0, Forall has_id batch ->
           exists st',
             upsert_batch embeddings_create index_upsert batch st0
             = (Ok tt, st'))
        /\ exists st',
             upsert_to_pinecone embeddings_create pinecone_index index_upsert
               describe_index_stats chunks st
             = (Ok true, st')).
Proof.
  split; [|split; [|split]].
  - intros t w tr. rewrite create_embedding_result.
    eexists. eexists. split; [reflexivity|]. cbn [fst]. now intros ->.
  - intros batch w tr Hid os st. subst st os.
    pose proof (outcomes_length _ _ embeddings_create batch w) as L.
    split; [assumption|]. split; [now apply embedded_length|]. split.
    + now rewrite embed_loop.
    + now rewrite upsert_batch_result.
  - intros pre c post os1 os2. apply embedded_skip.
  - intros H1 H2 H3 chunks st Hid. split.
    + intros batch st0 Hb. now apply upsert_batch_ok.
    + now apply upsert_to_pinecone_ok.
Qed.

(** ** The theorems at concrete inputs *)


(** Witness of C2. *)
Lemma chunk_text_fallback_witness :
  map text (chunk_text (U := ascii_data) long_text book0)
  = stride_windows (clean_text (U := ascii_data) long_text).
Proof.
  destruct (proj1 (chunk_text_fallback ascii_data long_text book0)) as [E _].
  - split; apply Nat.ltb_lt; vm_compute; reflexivity.
  - exact E.
Defined.

(** Witness of C3. *)
Lemma paragraph_passages_meet_floor_witness :
  MIN_CHUNK_SIZE
  <= length (text (nth 0 (chunk_text (U := ascii_data) short_text book0)
                     dummy_chunk)).
Proof.
  apply (proj1 (paragraph_passages_meet_floor ascii_data short_text book0 _)).
  vm_compute. left. reflexivity.
Defined.

(** Witness of C4. *)
Lemma heading_rule_witness :
  heading (U := ascii_data) (Py.strip (lit "CHAPTER 1"))
  /\ current_chapter
       (paragraph_step (U := ascii_data) book0 loop_init (lit "CHAPTER 1"))
     = lit "CHAPTER 1".
Proof.
  destruct (heading_rule ascii_data book0 loop_init (lit "CHAPTER 1"))
    as [Hiff Hstep].
  - vm_compute. discriminate.
  - split.
    + apply Hiff. vm_compute. reflexivity.
    + apply Hstep; [vm_compute; reflexivity|].
      exists [], (lit " 1"). vm_compute. reflexivity.
Defined.

(** Witness of C5. *)
Lemma size_limit_step_witness :
  chunk_count (paragraph_step (U := ascii_data) book0 full_loop big_paragraph)
  = 1.
Proof.
  destruct (proj1 (size_limit_step ascii_data book0 full_loop big_paragraph))
    as [Hflush _].
  - vm_compute. discriminate.
  - vm_compute. reflexivity.
  - apply Nat.ltb_lt. vm_compute. reflexivity.
  - destruct Hflush as (skipped & words & _ & _ & _ & E).
    + apply Nat.leb_le. vm_compute. reflexivity.
    + rewrite E. reflexivity.
Defined.

(** Witness of C6. *)
Lemma chunk_ids_sequential_witness :
  chunk_id (metadata (nth 2 (chunk_text (U := ascii_data) long_text book0)
                        dummy_chunk)) = 2.
Proof.
  apply (chunk_ids_sequential ascii_data long_text book0).
  vm_compute. reflexivity.
Defined.

(** Witness of C7. *)
Lemma generate_chunk_id_spec_witness :
  generate_chunk_id passage_a = generate_chunk_id passage_b
  /\ id_content passage_a <> id_content passage_c.
Proof.
  split.
  - apply (proj1 (generate_chunk_id_spec passage_a passage_b));
      vm_compute; reflexivity.
  - destruct (proj2 (generate_chunk_id_spec passage_a passage_c)) as [H _].
    + reflexivity.
    + left. vm_compute. discriminate.
    + exact H.
Defined.

(** Witness of C9. *)
Lemma embedding_failure_skips_passage_witness :
  exists st',
    upsert_to_pinecone flaky_backend store_ok upsert_ok store_ok
      [passage_a; passage_b; passage_c] (0, [])
    = (Ok true, st').
Proof.
  apply (proj2 (proj2 (proj2
           (embedding_failure_skips_passage nat nat flaky_backend store_ok
              upsert_ok store_ok)))
           (fun _ => eq_refl) (fun _ _ => eq_refl) (fun _ => eq_refl)
           [passage_a; passage_b; passage_c] (0, [])).
  repeat constructor; vm_compute; discriminate.
Defined.

(** Witness of C10. *)
Lemma chunk_text_empty_witness :
  chunk_text (U := ascii_data) [SP; NL; 9%N; SP] book0 = [].
Proof.
  destruct (chunk_text_empty ascii_data [SP; NL; 9%N; SP] book0) as [H1 H2].
  apply H2, H1. intros c Hc. vm_compute in Hc.
  repeat (destruct Hc as [<-|Hc]; [reflexivity|]). contradiction.
Defined.


(** * Further properties *)

(** ** Stripping *)

Lemma lstrip_idem s : Py.lstrip (Py.lstrip s) = Py.lstrip s.
Proof.
  induction s as [|a s IH]; simpl; [reflexivity|].
  destruct (Py.isspace a) eqn:E; [assumption|]. simpl. now rewrite E.
Qed.

Lemma lstrip_fixed_head c s :
  Py.lstrip (c :: s) = c :: s -> Py.isspace c = false.
Proof.
  simpl. destruct (Py.isspace c) eqn:E; [|reflexivity]. intros H.
  pose proof (PyFacts.lstrip_length s) as L. rewrite H in L. simpl in L. lia.
Qed.

Lemma lstrip_head_kept c s :
  Py.isspace c = false -> Py.lstrip (c :: s) = c :: s.
Proof. intros H. simpl. now rewrite H. Qed.

Lemma lstrip_snoc l c :
  Py.isspace c = false -> Py.lstrip (l ++ [c]) = Py.lstrip l ++ [c].
Proof.
  intros H. induction l as [|a l IH]; simpl.
  - now rewrite H.
  - destruct (Py.isspace a); [assumption|reflexivity].
Qed.

Lemma rstrip_cons c s :
  Py.isspace c = false -> Py.rstrip (c :: s) = c :: Py.rstrip s.
Proof.
  intros H. unfold Py.rstrip. simpl rev.
  now rewrite lstrip_snoc, rev_app_distr by assumption.
Qed.

Lemma strip_trimmed s : trimmed (Py.strip s).
Proof.
  unfold trimmed, Py.strip. split.
  - pose proof (lstrip_idem s) as H.
    destruct (Py.lstrip s) as [|c t]; [reflexivity|].
    apply lstrip_fixed_head in H.
    rewrite rstrip_cons by assumption. now apply lstrip_head_kept.
  - unfold Py.rstrip. rewrite rev_involutive. apply lstrip_idem.
Qed.

Lemma trimmed_strip s : trimmed s -> Py.strip s = s.
Proof.
  intros [H1 H2]. unfold Py.strip, Py.rstrip.
  now rewrite H1, H2, rev_involutive.
Qed.

Lemma trimmed_head c s : trimmed (c :: s) -> Py.isspace c = false.
Proof. intros [H _]. now apply lstrip_fixed_head in H. Qed.

Lemma trimmed_last s c : trimmed (s ++ [c]) -> Py.isspace c = false.
Proof.
  intros [_ H]. rewrite rev_app_distr in H. simpl in H.
  now apply lstrip_fixed_head in H.
Qed.

(** Stripping takes the paragraph separator off a trimmed string. *)
Lemma trimmed_strip_PARA s : trimmed s -> Py.strip (s ++ PARA) = s.
Proof.
  intros [H1 H2]. destruct s as [|c t]; [reflexivity|].
  unfold Py.strip, Py.rstrip.
  assert (E : Py.lstrip ((c :: t) ++ PARA) = (c :: t) ++ PARA).
  { apply lstrip_fixed_head in H1. cbn [app]. now apply lstrip_head_kept. }
  rewrite E, rev_app_distr.
  change (rev PARA ++ rev (c :: t)) with (NL :: NL :: rev (c :: t)).
  cbn [Py.lstrip]. change (Py.isspace NL) with true. cbv iota.
  now rewrite H2, rev_involutive.
Qed.

(** ** What [clean_text] returns *)

Module CleanFacts.
Import Re ReFacts.

(** Where a character class is replaced by characters outside it, none
    of the class is left. *)
Lemma sub_from_class_removed p repl : forall fuel s c,
  (forall d, In d repl -> p d = false) ->
  length s < fuel ->
  In c (sub_from fuel (Chr p) repl s) -> p c = false.
Proof.
  induction fuel as [|fuel IH]; intros s c Hr Hf H; [lia|].
  cbn [sub_from] in H. unfold match_ in H. cbn [exec] in H.
  destruct s as [|d s]; [contradiction|].
  destruct (p d) eqn:Hd.
  - replace (length s <? length (d :: s)) with true in H
      by (symmetry; apply Nat.ltb_lt; simpl; lia).
    apply in_app_or in H. destruct H as [H|H]; [now apply Hr|].
    apply (IH s c Hr); [simpl in Hf; lia|assumption].
  - destruct H as [<-|H]; [assumption|].
    apply (IH s c Hr); [simpl in Hf; lia|assumption].
Qed.

Lemma sub_class_removed p repl s c :
  (forall d, In d repl -> p d = false) ->
  In c (sub (Chr p) repl s) -> p c = false.
Proof. intros Hr. apply sub_from_class_removed; [assumption|lia]. Qed.

(** A substitution whose matches are never empty and whose replacement
    has at most one character does not lengthen the subject. *)
Lemma sub_from_length r repl : forall fuel s,
  length repl <= 1 ->
  (forall t rest, match_ r t = Some rest -> length rest < length t) ->
  length (sub_from fuel r repl s) <= length s.
Proof.
  induction fuel as [|fuel IH]; intros s Hr Hm; cbn [sub_from]; [lia|].
  destruct (match_ r s) as [rest|] eqn:E.
  - pose proof (Hm _ _ E) as Hlt. apply Nat.ltb_lt in Hlt. rewrite Hlt.
    apply Nat.ltb_lt in Hlt. rewrite length_app.
    specialize (IH rest Hr Hm). lia.
  - destruct s as [|d s]; [simpl; lia|].
    simpl. specialize (IH s Hr Hm). lia.
Qed.

Lemma sub_from_delete_length r : forall fuel s,
  length (sub_from fuel r [] s) <= length s.
Proof.
  induction fuel as [|fuel IH]; intros s; cbn [sub_from]; [lia|].
  destruct (match_ r s) as [rest|] eqn:E.
  - apply match_rest, rest_of_length in E.
    destruct (length rest <? length s).
    + cbn [app]. specialize (IH rest). lia.
    + destruct s as [|d s]; [simpl; lia|].
      cbn [app length]. specialize (IH s). lia.
  - destruct s as [|d s]; [simpl; lia|].
    cbn [length]. specialize (IH s). lia.
Qed.

Lemma match_Chr_only p s rest :
  match_ (Chr p) s = Some rest -> length rest < length s.
Proof.
  unfold match_. simpl. destruct s as [|c s]; [discriminate|].
  destruct (p c); [|discriminate]. intros [= <-]. simpl. lia.
Qed.

(** A match of a pattern that begins with a literal is not empty. *)
Lemma match_Lit_shorter c l r s rest :
  match_ (Seq (Lit (c :: l)) r) s = Some rest -> length rest < length s.
Proof.
  unfold match_. cbn [Lit exec]. destruct s as [|d s]; [discriminate|].
  destruct (c =? d)%N; [|discriminate]. intros H.
  apply exec_rest in H. destruct H as (s1 & H & R1).
  apply exec_rest in H. destruct H as (s2 & [= <-] & R2).
  apply rest_of_length in R1, R2. simpl. lia.
Qed.

End CleanFacts.

Section CleanText.
Context {U : UnicodeData}.
Import Re ReFacts CleanFacts.

(** [clean_text] without the two substitutions that never match. *)
Lemma clean_text_steps raw :
  clean_text raw
  = Py.strip
      (sub (Chr (cls [one 8212%N; one 8211%N])) [45%N]
         (sub (Chr (cls [one 96%N])) [39%N]
            (sub (Chr (cls [one 34%N; one 34%N])) [34%N]
               (sub email_re [] (sub url_re [] (collapsed raw)))))).
Proof.
  unfold clean_text. fold (collapsed raw).
  now rewrite page_patterns_never_match.
Qed.

Lemma collapsed_provenance raw c :
  In c (collapsed raw) -> In c raw \/ c = SP.
Proof.
  unfold collapsed. intros H. apply sub_In in H.
  destruct H as [H|[<-|[]]]; [now left | now right].
Qed.

(** Every character of the result is one of the input or one the
    normaliser writes. *)
Lemma clean_text_provenance raw c :
  In c (clean_text raw) -> In c raw \/ written c.
Proof.
  rewrite clean_text_steps. unfold written. intros H.
  apply PyFacts.strip_In in H.
  apply sub_In in H. destruct H as [H|[<-|[]]]; [|tauto].
  apply sub_In in H. destruct H as [H|[<-|[]]]; [|tauto].
  apply sub_In in H. destruct H as [H|[<-|[]]]; [|tauto].
  apply sub_In in H. destruct H as [H|[]].
  apply sub_In in H. destruct H as [H|[]].
  apply collapsed_provenance in H. tauto.
Qed.

Lemma clean_text_from_collapsed raw c :
  In c (clean_text raw) ->
  In c (collapsed raw) \/ c = 34%N \/ c = 39%N \/ c = 45%N.
Proof.
  rewrite clean_text_steps. intros H. apply PyFacts.strip_In in H.
  apply sub_In in H. destruct H as [H|[<-|[]]]; [|tauto].
  apply sub_In in H. destruct H as [H|[<-|[]]]; [|tauto].
  apply sub_In in H. destruct H as [H|[<-|[]]]; [|tauto].
  apply sub_In in H. destruct H as [H|[]].
  apply sub_In in H. destruct H as [H|[]]. now left.
Qed.

Lemma clean_text_trimmed raw : trimmed (clean_text raw).
Proof. unfold clean_text. apply strip_trimmed. Qed.

(** X1.  The only whitespace in the result of [clean_text] is the plain
    space, and the result neither starts nor ends with whitespace. *)
Theorem clean_text_whitespace (raw : str) :
  (forall c, In c (clean_text raw) -> Py.isspace c = true -> c = SP)
  /\ (forall c rest, clean_text raw = c :: rest -> Py.isspace c = false)
  /\ (forall init c, clean_text raw = init ++ [c] -> Py.isspace c = false).
Proof.
  split; [|split].
  - intros c H Hc. apply clean_text_from_collapsed in H.
    destruct H as [H | [-> | [-> | ->]]]; try discriminate Hc.
    now apply (collapsed_space raw).
  - intros c rest E. apply (trimmed_head c rest). rewrite <- E.
    apply clean_text_trimmed.
  - intros init c E. apply (trimmed_last init c). rewrite <- E.
    apply clean_text_trimmed.
Qed.

(** X2.  Every character of the result of [clean_text] is a character of
    the input or one of space, straight double quote, apostrophe and
    hyphen; the result holds no line feed, no backtick, no em dash and
    no en dash. *)
Theorem clean_text_characters (raw : str) (c : char) :
  In c (clean_text raw) ->
  (In c raw \/ written c)
  /\ c <> NL /\ c <> 96%N /\ c <> 8212%N /\ c <> 8211%N.
Proof.
  intros H. split; [now apply clean_text_provenance|]. split.
  - intros ->. now apply (clean_text_no_NL raw).
  - rewrite clean_text_steps in H. apply PyFacts.strip_In in H. split.
    + intros ->. apply sub_In in H. destruct H as [H|[E|[]]];
        [|discriminate E].
      apply sub_class_removed in H; [discriminate H|].
      intros d [<-|[]]. reflexivity.
    + apply sub_class_removed in H; [|intros d [<-|[]]; reflexivity].
      split; intros ->; discriminate H.
Qed.

(** X3.  [clean_text] never returns more characters than it is given. *)
Theorem clean_text_length (raw : str) :
  length (clean_text raw) <= length raw.
Proof.
  rewrite clean_text_steps.
  etransitivity; [apply PyFacts.strip_length|].
  etransitivity;
    [apply sub_from_length; [simpl; lia | apply match_Chr_only]|].
  etransitivity;
    [apply sub_from_length; [simpl; lia | apply match_Chr_only]|].
  etransitivity;
    [apply sub_from_length; [simpl; lia | apply match_Chr_only]|].
  etransitivity; [apply sub_from_delete_length|].
  etransitivity; [apply sub_from_delete_length|].
  unfold collapsed.
  apply sub_from_length; [simpl; lia|]. apply match_Chr_shorter.
Qed.

End CleanText.

(** ** What [chunk_text] returns *)

Section ChunkTextValue.
Context {U : UnicodeData}.

Lemma is_heading_short p : is_heading p = true -> length p < 100.
Proof.
  unfold is_heading. intros H. apply andb_true_iff in H.
  now apply Nat.ltb_lt.
Qed.

(** A single paragraph without white space around it: the paragraph
    pass returns it whole, or nothing. *)
Lemma one_paragraph_value book_name c :
  trimmed c ->
  final_flush book_name (paragraph_step book_name loop_init c)
  = if MIN_CHUNK_SIZE <=? length c
    then [whole_passage book_name c]
    else [].
Proof.
  intros T. unfold paragraph_step.
  rewrite (trimmed_strip c T).
  destruct c as [|a t] eqn:E; [reflexivity|]. rewrite <- E in *.
  destruct (is_heading c) eqn:Hh.
  - apply is_heading_short in Hh.
    replace (MIN_CHUNK_SIZE <=? length c) with false
      by (symmetry; apply Nat.leb_gt; unfold MIN_CHUNK_SIZE; lia).
    cbn [loop_init current_chunk length].
    change (MIN_CHUNK_SIZE <=? 0) with false. cbv iota.
    now destruct (Py.contains _ _).
  - cbn [loop_init current_chunk length].
    change (MIN_CHUNK_SIZE <=? 0) with false. cbv iota.
    assert (F : final_flush book_name
                  (set_current_chunk ([] ++ c ++ PARA) loop_init)
                = if MIN_CHUNK_SIZE <=? length c
                  then [whole_passage book_name c] else []).
    { unfold final_flush, set_current_chunk, flush, whole_passage.
      cbn [current_chunk chunks current_chapter current_section chunk_count
           loop_init app].
      now rewrite (trimmed_strip_PARA c T). }
    now destruct (CHUNK_SIZE <? _).
Qed.

(** The paragraph pass of [chunk_text]: the whole cleaned text as one
    passage, or nothing. *)
Lemma paragraph_chunks_clean_value raw book_name :
  paragraph_chunks book_name (clean_text raw)
  = if MIN_CHUNK_SIZE <=? length (clean_text raw)
    then [whole_passage book_name (clean_text raw)]
    else [].
Proof.
  etransitivity; [apply paragraph_chunks_clean|].
  apply one_paragraph_value, clean_text_trimmed.
Qed.

End ChunkTextValue.

(** ** The shape of the character-stride pass *)

(** A test that can only switch from true to false keeps a prefix. *)
Lemma antitone_below (P : nat -> bool) :
  (forall k, P (S k) = true -> P k = true) ->
  forall n k, k <= n -> P n = true -> P k = true.
Proof.
  intros HP. induction n as [|n IH]; intros k Hk Hn.
  - now replace k with 0 by lia.
  - destruct (Nat.eq_dec k (S n)) as [->|Hne]; [assumption|].
    apply IH; [lia | now apply HP].
Qed.

Lemma filter_seq_all (P : nat -> bool) n :
  (forall k, k < n -> P k = true) -> filter P (seq 0 n) = seq 0 n.
Proof.
  intros H. induction n as [|n IH]; [reflexivity|].
  rewrite seq_S, filter_app, IH by (intros k Hk; apply H; lia).
  cbn [filter Nat.add]. now rewrite (H n) by lia.
Qed.

Lemma filter_seq_prefix (P : nat -> bool) :
  (forall k, P (S k) = true -> P k = true) ->
  forall n, filter P (seq 0 n) = seq 0 (length (filter P (seq 0 n))).
Proof.
  intros HP. induction n as [|n IH]; [reflexivity|].
  rewrite seq_S, filter_app. cbn [filter Nat.add].
  destruct (P n) eqn:E.
  - rewrite (filter_seq_all P n)
      by (intros k Hk; apply (antitone_below P HP n k); [lia|assumption]).
    now rewrite length_app, length_seq, <- seq_S, Nat.add_1_r.
  - now rewrite !app_nil_r.
Qed.

Lemma filter_map_comm {A B} (f : A -> B) (p : B -> bool) l :
  filter p (map f l) = map f (filter (fun x => p (f x)) l).
Proof.
  induction l as [|a l IH]; simpl; [reflexivity|].
  destruct (p (f a)); simpl; now rewrite IH.
Qed.

Section WindowsShape.
Variables (size step floor : nat) (content : str).
Hypothesis step_pos : 0 < step.
Hypothesis floor_pos : 0 < floor.
Hypothesis floor_small : floor <= size.

Local Abbreviation slice_at := (fun k => Py.slice (k * step) size content).

Lemma kept_window_iff k :
  is_kept floor (slice_at k) = true <-> k * step + floor <= length content.
Proof.
  unfold is_kept, Py.slice. rewrite Nat.leb_le, length_firstn, length_skipn.
  lia.
Qed.

Lemma kept_window_antitone k :
  is_kept floor (slice_at (S k)) = true -> is_kept floor (slice_at k) = true.
Proof. rewrite !kept_window_iff. nia. Qed.

(** The windows kept are the first [m], where [m] is the number of
    starting points that leave [floor] characters. *)
Lemma windows_prefix :
  exists m,
    windows size step floor content = map slice_at (seq 0 m)
    /\ forall k, k < m <-> k * step + floor <= length content.
Proof.
  unfold windows.
  change (fun w => floor <=? length w) with (is_kept floor).
  change (fun j => firstn size (skipn (j * step) content)) with slice_at.
  rewrite filter_map_comm.
  pose proof (filter_seq_prefix (fun k => is_kept floor (slice_at k))
                kept_window_antitone (length content)) as E.
  set (kept := filter _ (seq 0 (length content))) in *.
  exists (length kept). split; [now rewrite E at 1|].
  intros k. split.
  - intros Hk. apply kept_window_iff.
    assert (Hin : In k kept) by (rewrite E; apply in_seq; lia).
    now apply filter_In in Hin.
  - intros Hk. destruct (Nat.lt_ge_cases k (length kept)) as [|Hge];
      [assumption|]. exfalso.
    assert (Hin : In k kept).
    { apply filter_In. split; [apply in_seq; nia | now apply kept_window_iff]. }
    rewrite E in Hin. apply in_seq in Hin. lia.
Qed.

End WindowsShape.

Lemma stride_count_spec n m :
  (forall k, k < m <-> k * (CHUNK_SIZE - CHUNK_OVERLAP) + MIN_CHUNK_SIZE <= n) ->
  m = stride_count n.
Proof.
  unfold stride_count, CHUNK_SIZE, CHUNK_OVERLAP, MIN_CHUNK_SIZE.
  change (1000 - 200) with 800. change (800 - 300) with 500. intros H.
  pose proof (Nat.div_mod_eq (n + 500) 800) as D.
  pose proof (Nat.mod_upper_bound (n + 500) 800 ltac:(discriminate)) as R.
  assert (Hm : ~ m * 800 + 300 <= n) by (intros X; apply H in X; lia).
  destruct m as [|m'].
  - lia.
  - pose proof (proj1 (H m') (Nat.lt_succ_diag_r m')). lia.
Qed.

(** The texts of the stride pass, by position. *)
Lemma stride_texts_value book_name content :
  map text (stride_chunks book_name content)
  = map (fun k => text (stride_passage book_name content k))
      (seq 0 (stride_count (length content))).
Proof.
  rewrite stride_chunks_texts. unfold stride_windows.
  destruct (windows_prefix CHUNK_SIZE (CHUNK_SIZE - CHUNK_OVERLAP)
              MIN_CHUNK_SIZE content) as (m & E & Hm);
    try (unfold CHUNK_SIZE, CHUNK_OVERLAP, MIN_CHUNK_SIZE; lia).
  rewrite E. now rewrite (stride_count_spec (length content) m Hm).
Qed.

Lemma stride_fold_metadata book_name content l : forall st,
  (forall c, In c (fst st) ->
     metadata c
     = metadata (stride_passage book_name content (chunk_id (metadata c)))) ->
  forall c,
    In c (fst (fold_left (stride_step book_name content) l st)) ->
    metadata c
    = metadata (stride_passage book_name content (chunk_id (metadata c))).
Proof.
  induction l as [|i l IH]; intros [cs n] H; cbn [fold_left]; [assumption|].
  apply IH. unfold stride_step.
  destruct (MIN_CHUNK_SIZE <=? length (Py.slice i CHUNK_SIZE content));
    [|assumption].
  cbn [fst]. intros c Hc. apply in_app_or in Hc.
  destruct Hc as [Hc|[<-|[]]]; [now apply H | reflexivity].
Qed.

Lemma chunk_eta (a b : Chunk) :
  text a = text b -> metadata a = metadata b -> a = b.
Proof. destruct a, b. simpl. now intros -> ->. Qed.

(** A list of chunks is known from its texts, its ids and the way the
    metadata follows from the id. *)
Lemma chunks_from_parts (f : nat -> Chunk) : forall l s n,
  map text l = map (fun k => text (f k)) (seq s n) ->
  ids l = seq s (length l) ->
  (forall c, In c l -> metadata c = metadata (f (chunk_id (metadata c)))) ->
  l = map f (seq s n).
Proof.
  induction l as [|a l IH]; intros s n Ht Hi Hm.
  - destruct n; [reflexivity | discriminate Ht].
  - destruct n as [|n]; [discriminate Ht|].
    cbn [seq map] in *. injection Ht as Ha Ht. injection Hi as Hs Hi.
    f_equal.
    + apply chunk_eta; [assumption|].
      rewrite (Hm a) by now left. unfold ids in Hs. now rewrite Hs.
    + apply IH; [assumption|assumption|].
      intros c Hc. apply Hm. now right.
Qed.

(** The stride pass, passage by passage. *)
Lemma stride_chunks_value book_name content :
  stride_chunks book_name content
  = map (stride_passage book_name content)
      (seq 0 (stride_count (length content))).
Proof.
  apply chunks_from_parts.
  - apply stride_texts_value.
  - apply stride_chunks_ids.
  - unfold stride_chunks. apply stride_fold_metadata. intros c [].
Qed.

Section ChunkTextLong.
Context {U : UnicodeData}.

(** The three results of [chunk_text]. *)
Lemma chunk_text_chunked raw book_name :
  chunked book_name (clean_text raw) (chunk_text raw book_name).
Proof.
  unfold chunk_text, fallback. rewrite paragraph_chunks_clean_value.
  generalize (stride_chunks_value book_name (clean_text raw)).
  generalize (clean_text raw) as content. intros content Hv.
  unfold chunked.
  destruct (Nat.lt_ge_cases (length content) MIN_CHUNK_SIZE) as [Hs|Hs].
  - left. split; [assumption|].
    replace (MIN_CHUNK_SIZE <=? length content) with false
      by (symmetry; now apply Nat.leb_gt).
    replace (CHUNK_SIZE * 2 <? length content) with false
      by (symmetry; apply Nat.ltb_ge;
          unfold CHUNK_SIZE, MIN_CHUNK_SIZE in *; lia).
    now rewrite andb_false_r.
  - right.
    replace (MIN_CHUNK_SIZE <=? length content) with true
      by (symmetry; now apply Nat.leb_le).
    destruct (Nat.le_gt_cases (length content) (2 * CHUNK_SIZE)) as [Hl|Hl].
    + left. split; [now split|].
      replace (CHUNK_SIZE * 2 <? length content) with false
        by (symmetry; apply Nat.ltb_ge; lia).
      now rewrite andb_false_r.
    + right. split; [assumption|].
      replace (CHUNK_SIZE * 2 <? length content) with true
        by (symmetry; apply Nat.ltb_lt; lia).
      exact Hv.
Qed.

(** X4.  On a raw text whose cleaned form has fewer than
    [MIN_CHUNK_SIZE] characters [chunk_text] returns nothing; on one
    whose cleaned form has between [MIN_CHUNK_SIZE] and
    [2 * CHUNK_SIZE] characters it returns one passage: the whole cleaned
    text, under the chapter "Introduction", an empty section and
    [chunk_id] 0. *)
Theorem chunk_text_short_text (raw book_name : str) :
  (length (clean_text raw) < MIN_CHUNK_SIZE -> chunk_text raw book_name = [])
  /\ (MIN_CHUNK_SIZE <= length (clean_text raw) ->
      length (clean_text raw) <= 2 * CHUNK_SIZE ->
      chunk_text raw book_name = [whole_passage book_name (clean_text raw)]).
Proof.
  destruct (chunk_text_chunked raw book_name) as [[H E]|[[H E]|[H E]]];
    split; intros; try exact E;
    unfold MIN_CHUNK_SIZE, CHUNK_SIZE in *; lia.
Qed.

(** X5.  On a raw text whose cleaned form has more than [2 * CHUNK_SIZE]
    characters [chunk_text] returns the windows of [CHUNK_SIZE]
    characters that start at the multiples of
    [CHUNK_SIZE - CHUNK_OVERLAP] and hold at least [MIN_CHUNK_SIZE]
    characters, [(n + 500) / 800] of them for [n] characters, window [k]
    under the chapter "Section k/10+1" and the section "Part k%10+1". *)
Theorem chunk_text_long_text (raw book_name : str) :
  2 * CHUNK_SIZE < length (clean_text raw) ->
  chunk_text raw book_name
  = map (stride_passage book_name (clean_text raw))
      (seq 0 (stride_count (length (clean_text raw)))).
Proof.
  intros Hl.
  destruct (chunk_text_chunked raw book_name) as [[H E]|[[H E]|[H E]]];
    try exact E; unfold MIN_CHUNK_SIZE, CHUNK_SIZE in *; lia.
Qed.

End ChunkTextLong.

Lemma stride_count_iff n k :
  k < stride_count n
  <-> k * (CHUNK_SIZE - CHUNK_OVERLAP) + MIN_CHUNK_SIZE <= n.
Proof.
  unfold stride_count, CHUNK_SIZE, CHUNK_OVERLAP, MIN_CHUNK_SIZE.
  change (1000 - 200) with 800. change (800 - 300) with 500.
  pose proof (Nat.div_mod_eq (n + 500) 800) as D.
  pose proof (Nat.mod_upper_bound (n + 500) 800 ltac:(discriminate)) as R.
  lia.
Qed.

Lemma nth_error_map_seq {A} (f : nat -> A) m k :
  nth_error (map f (seq 0 m)) k = if k <? m then Some (f k) else None.
Proof.
  rewrite nth_error_map, nth_error_seq. now destruct (k <? m).
Qed.

Lemma stride_chunks_nth book_name content k a :
  nth_error (stride_chunks book_name content) k = Some a <->
  a = stride_passage book_name content k
  /\ k * (CHUNK_SIZE - CHUNK_OVERLAP) + MIN_CHUNK_SIZE <= length content.
Proof.
  rewrite stride_chunks_value, nth_error_map_seq, <- stride_count_iff.
  destruct (Nat.ltb_spec k (stride_count (length content))); split.
  - intros [= <-]. now split.
  - now intros [-> _].
  - discriminate.
  - intros [_ H']. lia.
Qed.

(** X7.  Two consecutive passages of the character-stride pass overlap
    by [CHUNK_OVERLAP] characters: the first has [CHUNK_SIZE] characters
    and its last [CHUNK_OVERLAP] are the first [CHUNK_OVERLAP] of the
    second. *)
Theorem stride_chunks_overlap (book_name content : str) (k : nat)
  (a b : Chunk) :
  nth_error (stride_chunks book_name content) k = Some a ->
  nth_error (stride_chunks book_name content) (S k) = Some b ->
  length (text a) = CHUNK_SIZE
  /\ skipn (CHUNK_SIZE - CHUNK_OVERLAP) (text a)
     = firstn CHUNK_OVERLAP (text b).
Proof.
  rewrite !stride_chunks_nth. intros [-> Ha] [-> Hb].
  unfold stride_passage, Py.slice. cbn [text].
  unfold CHUNK_SIZE, CHUNK_OVERLAP, MIN_CHUNK_SIZE in *.
  change (1000 - 200) with 800 in *. split.
  - rewrite length_firstn, length_skipn. lia.
  - rewrite skipn_firstn_comm, skipn_skipn, firstn_firstn.
    change (1000 - 800) with 200. change (Nat.min 200 1000) with 200.
    now replace (800 + k * 800) with (S k * 800) by lia.
Qed.

(** X8.  The character-stride pass loses fewer than
    [MIN_CHUNK_SIZE - CHUNK_OVERLAP] characters, all at the end: every
    other character of a text of at least [MIN_CHUNK_SIZE] characters is
    in one of the passages, at its place. *)
Theorem stride_chunks_cover (book_name content : str) (p : nat) :
  MIN_CHUNK_SIZE <= length content ->
  p + (MIN_CHUNK_SIZE - CHUNK_OVERLAP) <= length content ->
  exists k a,
    nth_error (stride_chunks book_name content) k = Some a
    /\ k * (CHUNK_SIZE - CHUNK_OVERLAP) <= p
    /\ nth_error (text a) (p - k * (CHUNK_SIZE - CHUNK_OVERLAP))
       = nth_error content p
    /\ nth_error content p <> None.
Proof.
  unfold CHUNK_SIZE, CHUNK_OVERLAP, MIN_CHUNK_SIZE.
  change (1000 - 200) with 800. change (300 - 200) with 100.
  intros Hlen Hp.
  pose proof (Nat.div_mod_eq p 800) as D.
  pose proof (Nat.mod_upper_bound p 800 ltac:(discriminate)) as R.
  set (q := p / 800) in *.
  assert (Hk : exists k, k * 800 + 300 <= length content
                         /\ k * 800 <= p /\ p < k * 800 + 1000).
  { destruct (Nat.le_gt_cases (q * 800 + 300) (length content)).
    - exists q. lia.
    - exists (q - 1). lia. }
  destruct Hk as (k & Hk1 & Hk2 & Hk3).
  exists k, (stride_passage book_name content k). split; [|split; [|split]].
  - apply stride_chunks_nth. split; [reflexivity|].
    unfold CHUNK_SIZE, CHUNK_OVERLAP, MIN_CHUNK_SIZE.
    now change (1000 - 200) with 800.
  - assumption.
  - unfold stride_passage, Py.slice. cbn [text].
    unfold CHUNK_SIZE, CHUNK_OVERLAP. change (1000 - 200) with 800.
    rewrite nth_error_firstn, nth_error_skipn.
    replace (p - k * 800 <? 1000) with true
      by (symmetry; apply Nat.ltb_lt; lia).
    f_equal. lia.
  - apply nth_error_Some. lia.
Qed.

(** The passages of a result of [chunk_text], one by one. *)
Lemma chunked_bounds book_name content l c :
  chunked book_name content l -> In c l ->
  book (metadata c) = book_name
  /\ MIN_CHUNK_SIZE <= length (text c) <= 2 * CHUNK_SIZE
  /\ (forall x, In x (text c) -> In x content).
Proof.
  intros [[H ->]|[[H ->]|[H ->]]] Hc.
  - destruct Hc.
  - destruct Hc as [<-|[]]. cbn [whole_passage metadata book text].
    now repeat split.
  - apply in_map_iff in Hc. destruct Hc as (k & <- & Hk).
    apply in_seq in Hk. destruct Hk as [_ Hk]. cbn [Nat.add] in Hk.
    apply stride_count_iff in Hk.
    unfold stride_passage. cbn [metadata book text].
    split; [reflexivity|]. split.
    + unfold Py.slice. rewrite length_firstn, length_skipn.
      unfold CHUNK_SIZE, CHUNK_OVERLAP, MIN_CHUNK_SIZE in *. lia.
    + intros x. apply slice_In.
Qed.

Lemma embedding_input_uncut (t : str) :
  length t <= 2 * CHUNK_SIZE -> embedding_input t = t.
Proof.
  intros B. unfold embedding_input.
  replace (8000 <? N.of_nat (length t) / 4)%N with false; [reflexivity|].
  symmetry. apply N.ltb_ge. apply N.Div0.div_le_upper_bound.
  unfold CHUNK_SIZE in B. lia.
Qed.

Section ChunkTextBounds.
Context {U : UnicodeData}.

(** X6.  Every passage [chunk_text] returns carries the book name and a
    text of at least [MIN_CHUNK_SIZE] and at most [2 * CHUNK_SIZE]
    characters, which [create_embedding] sends to the backend uncut. *)
Theorem chunk_text_passage_bounds (raw book_name : str) (c : Chunk) :
  In c (chunk_text raw book_name) ->
  book (metadata c) = book_name
  /\ MIN_CHUNK_SIZE <= length (text c) <= 2 * CHUNK_SIZE
  /\ embedding_input (text c) = text c.
Proof.
  intros H.
  destruct (chunked_bounds _ _ _ c (chunk_text_chunked raw book_name) H)
    as (B1 & B2 & _).
  split; [exact B1|]. split; [exact B2|].
  apply embedding_input_uncut, B2.
Qed.

End ChunkTextBounds.

(** ** Batches *)

Lemma range_from_lt step stop : forall fuel i j,
  In j (Py.range_from fuel i stop step) -> j < stop.
Proof.
  induction fuel as [|fuel IH]; intros i j H; cbn [Py.range_from] in H;
    [contradiction|].
  destruct (Nat.ltb_spec i stop); [|contradiction].
  destruct H as [<-|H]; [assumption | now apply (IH (i + step))].
Qed.

Lemma range_from_slices {A} (l : list A) size :
  0 < size ->
  forall fuel k,
    length l <= (k + fuel) * size ->
    concat (map (fun i => Py.slice i size l)
              (Py.range_from fuel (k * size) (length l) size))
    = skipn (k * size) l.
Proof.
  intros Hs. induction fuel as [|fuel IH]; intros k Hf;
    cbn [Py.range_from].
  - rewrite skipn_all2; [reflexivity|]. now rewrite Nat.add_0_r in Hf.
  - destruct (Nat.ltb_spec (k * size) (length l)).
    + cbn [map concat].
      replace (k * size + size) with (S k * size) by lia.
      rewrite IH by (now replace (S k + fuel) with (k + S fuel) by lia).
      unfold Py.slice.
      replace (S k * size) with (size + k * size) by lia.
      now rewrite <- skipn_skipn, firstn_skipn.
    + now rewrite skipn_all2.
Qed.

Lemma batches_concat (chunks : list Chunk) :
  concat (batches chunks) = chunks.
Proof.
  unfold batches, Py.range.
  change 0 with (0 * batch_size) at 1.
  rewrite range_from_slices; [reflexivity | unfold batch_size; lia |].
  unfold batch_size. lia.
Qed.

(** X9.  The batches of [upsert_to_pinecone] cut the list of passages
    into consecutive pieces: put end to end they give the list back, and
    each holds between 1 and 100 passages. *)
Theorem batches_partition (chunks : list Chunk) :
  concat (batches chunks) = chunks
  /\ Forall (fun b => 1 <= length b <= batch_size) (batches chunks).
Proof.
  split; [apply batches_concat|]. unfold batches, Py.range.
  - apply Forall_forall. intros b Hb. apply in_map_iff in Hb.
    destruct Hb as (i & <- & Hi). apply range_from_lt in Hi.
    unfold Py.slice. rewrite length_firstn, length_skipn.
    unfold batch_size. lia.
Qed.

(** ** The form of an id, and when there is one *)

Module HexFacts.
Import MD5.
Local Open Scope N_scope.

Lemma le_bytes_length : forall n x, length (le_bytes n x) = n.
Proof.
  induction n as [|n IH]; intros x; cbn [le_bytes length]; [reflexivity|].
  now rewrite IH.
Qed.

Lemma le_bytes_byte : forall n x b, In b (le_bytes n x) -> b < 256.
Proof.
  induction n as [|n IH]; intros x b H; cbn [le_bytes] in H; [contradiction|].
  destruct H as [<-|H]; [apply N.mod_lt; discriminate | now apply IH in H].
Qed.

Lemma hex_digit_char x : x < 16 -> hex_char (hex_digit x).
Proof.
  intros H. unfold hex_char, hex_digit. destruct (N.ltb_spec x 10); lia.
Qed.

Lemma hex_bytes_length l : length (flat_map hex_byte l) = (2 * length l)%nat.
Proof.
  induction l as [|b l IH]; [reflexivity|].
  cbn [flat_map hex_byte app length]. rewrite IH. lia.
Qed.

Lemma hex_byte_chars b c : b < 256 -> In c (hex_byte b) -> hex_char c.
Proof.
  intros Hb [<-|[<-|[]]]; apply hex_digit_char.
  - apply N.Div0.div_lt_upper_bound. exact Hb.
  - apply N.mod_lt. discriminate.
Qed.

Lemma hexdigest_format msg :
  length (hexdigest msg) = 32%nat
  /\ forall c, In c (hexdigest msg) -> hex_char c.
Proof.
  unfold hexdigest. destruct (md5 msg) as [[[a b] c] d]. split.
  - now rewrite hex_bytes_length, !length_app, !le_bytes_length.
  - intros x H. apply in_flat_map in H. destruct H as (y & Hy & H).
    apply (hex_byte_chars y); [|assumption].
    repeat (apply in_app_or in Hy; destruct Hy as [Hy|Hy];
            [now apply le_bytes_byte in Hy|]).
    now apply le_bytes_byte in Hy.
Qed.

End HexFacts.

(** X10.  An id [generate_chunk_id] returns is a string of 32 lower-case
    hexadecimal digits. *)
Theorem generate_chunk_id_format (c : Chunk) (i : str) :
  generate_chunk_id c = Some i ->
  length i = 32 /\ forall x, In x i -> hex_char x.
Proof.
  unfold generate_chunk_id. destruct (encode (id_content c)) as [bytes|];
    [|discriminate].
  intros [= <-]. apply HexFacts.hexdigest_format.
Qed.

Lemma utf8_char_scalar c : utf8_char c <> None <-> scalar c.
Proof.
  unfold utf8_char, scalar.
  destruct (N.ltb_spec c 128); [split; [lia|discriminate]|].
  destruct (N.ltb_spec c 2048); [split; [lia|discriminate]|].
  destruct (N.ltb_spec c 65536).
  - destruct (N.leb_spec 55296 c); destruct (N.leb_spec c 57343);
      cbn [andb]; split; try lia; try discriminate; try congruence.
  - destruct (N.ltb_spec c 1114112); split; try lia; try discriminate;
      congruence.
Qed.

Lemma encode_scalar : forall s,
  encode s <> None <-> forall c, In c s -> scalar c.
Proof.
  induction s as [|c s IH]; cbn [encode].
  - split; [intros _ x [] | discriminate].
  - pose proof (utf8_char_scalar c) as Hc. split.
    + intros H x [<-|Hx].
      * apply Hc. now destruct (utf8_char c).
      * apply IH; [|assumption].
        destruct (utf8_char c); [|contradiction].
        now destruct (encode s).
    + intros H.
      assert (H1 : utf8_char c <> None) by (apply Hc, H; now left).
      assert (H2 : encode s <> None)
        by (apply IH; intros x Hx; apply H; now right).
      destruct (utf8_char c); [|contradiction].
      destruct (encode s); [discriminate|contradiction].
Qed.

Lemma firstn_In {A} n (l : list A) x : In x (firstn n l) -> In x l.
Proof.
  intros H. rewrite <- (firstn_skipn n l). apply in_or_app. now left.
Qed.

Lemma scalarb_spec c : scalarb c = true -> scalar c.
Proof.
  unfold scalarb, scalar. intros H. apply andb_true_iff in H.
  destruct H as [H1 H2]. apply N.ltb_lt in H1. split; [assumption|].
  intros [H3 H4]. apply N.leb_le in H3, H4. now rewrite H3, H4 in H2.
Qed.

Lemma scalar_all (l : str) :
  forallb scalarb l = true -> forall x, In x l -> scalar x.
Proof.
  intros H x Hx. apply scalarb_spec.
  rewrite forallb_forall in H. now apply H.
Qed.

Lemma digit_scalar c : is_digit c -> scalar c.
Proof. unfold is_digit, scalar. lia. Qed.

Lemma chunk_id_defined_iff (c : Chunk) :
  generate_chunk_id c <> None
  <-> forall x, In x (book (metadata c) ++ firstn 100 (text c)) -> scalar x.
Proof.
  unfold generate_chunk_id.
  assert (E : encode (id_content c) <> None
              <-> forall x, In x (book (metadata c) ++ firstn 100 (text c))
                            -> scalar x).
  { rewrite encode_scalar. unfold id_content. change (lit "_") with [95%N].
    split.
    - intros H x Hx. apply H. apply in_app_or in Hx. apply in_or_app.
      destruct Hx as [Hx|Hx]; [now left|]. right. cbn [app]. right.
      apply in_or_app. right. cbn [app]. now right.
    - intros H x Hx. apply in_app_or in Hx.
      destruct Hx as [Hx|Hx]; [apply H, in_or_app; now left|].
      cbn [app] in Hx. destruct Hx as [<-|Hx]; [unfold scalar; lia|].
      apply in_app_or in Hx. destruct Hx as [Hx|Hx].
      + now apply digit_scalar, (IdFacts.str_of_nat_digits
                                   (chunk_id (metadata c))).
      + cbn [app] in Hx. destruct Hx as [<-|Hx]; [unfold scalar; lia|].
        apply H, in_or_app. now right. }
  destruct (encode (id_content c)); split; intros H.
  - apply E. discriminate.
  - discriminate.
  - contradiction.
  - apply E in H. contradiction.
Qed.

Lemma chunk_id_defined (c : Chunk) :
  (forall x, In x (book (metadata c) ++ firstn 100 (text c)) -> scalar x) ->
  has_id c.
Proof. apply chunk_id_defined_iff. Qed.

(** X11.  [generate_chunk_id] fails exactly when the book name or one of
    the first 100 characters of the text is a surrogate (or no code
    point at all); what comes after the 100th character does not
    matter. *)
Theorem generate_chunk_id_defined (c : Chunk) :
  generate_chunk_id c <> None
  <-> forall x, In x (book (metadata c) ++ firstn 100 (text c)) -> scalar x.
Proof. apply chunk_id_defined_iff. Qed.

Section PassagesHaveIds.
Context {U : UnicodeData}.

Lemma chunk_text_text_In raw book_name c x :
  In c (chunk_text raw book_name) -> In x (text c) -> In x (clean_text raw).
Proof.
  intros H.
  apply (chunked_bounds _ _ _ c (chunk_text_chunked raw book_name) H).
Qed.

Lemma chunk_text_book raw book_name c :
  In c (chunk_text raw book_name) -> book (metadata c) = book_name.
Proof.
  intros H.
  apply (chunked_bounds _ _ _ c (chunk_text_chunked raw book_name) H).
Qed.

Lemma passages_have_ids raw book_name :
  (forall x, In x raw -> scalar x) ->
  (forall x, In x book_name -> scalar x) ->
  Forall has_id (chunk_text raw book_name).
Proof.
  intros Hraw Hbook.
  apply Forall_forall. intros c Hc. apply chunk_id_defined.
  intros x Hx. apply in_app_or in Hx. destruct Hx as [Hx|Hx].
  - apply Hbook. rewrite <- (chunk_text_book raw book_name c Hc). exact Hx.
  - apply firstn_In in Hx.
    pose proof (chunk_text_text_In raw book_name c x Hc Hx) as Hin.
    apply clean_text_provenance in Hin. destruct Hin as [Hr|Hw];
      [apply Hraw; exact Hr|].
    clear - Hw. unfold written, scalar, SP in *. lia.
Qed.

(** X12.  When the raw text and the book name hold no surrogate, as for
    a text read from a UTF-8 file, every passage [chunk_text] returns
    has an id, and every character of a passage is one of the raw text
    or one the normaliser writes. *)
Theorem chunk_text_passages_have_ids (raw book_name : str) :
  (forall x, In x raw -> scalar x) ->
  (forall x, In x book_name -> scalar x) ->
  Forall has_id (chunk_text raw book_name)
  /\ forall c x, In c (chunk_text raw book_name) -> In x (text c) ->
                 In x raw \/ written x.
Proof.
  intros Hraw Hbook. split; [apply passages_have_ids; assumption|].
  intros c x Hc Hx.
  eapply clean_text_provenance, chunk_text_text_In; eassumption.
Qed.

End PassagesHaveIds.

(** ** More on embedding and upsert *)

Lemma embedding_input_bound (t : str) :
  (exists n, embedding_input t = firstn n t)
  /\ (N.of_nat (length (embedding_input t)) / 4 <= 8000)%N
  /\ ((N.of_nat (length t) <= 32003)%N -> embedding_input t = t)
  /\ ((32003 < N.of_nat (length t))%N ->
      embedding_input t = firstn (N.to_nat 32000) t).
Proof.
  unfold embedding_input.
  destruct (N.ltb_spec 8000 (N.of_nat (length t) / 4)) as [H|H].
  - assert (L : (32004 <= N.of_nat (length t))%N) by euclid.
    split; [now eexists|]. split; [|split; [lia|reflexivity]].
    rewrite length_firstn.
    replace (Nat.min (N.to_nat (8000 * 4)) (length t))
      with (N.to_nat 32000) by lia.
    rewrite N2Nat.id. discriminate.
  - assert (L : (N.of_nat (length t) <= 32003)%N) by euclid.
    split; [exists (length t); now rewrite firstn_all|].
    split; [assumption|]. split; [reflexivity|lia].
Qed.

Section PipelineMore.
Context {U : UnicodeData}.
Variable vector : Type.
Variable World : Type.
Variable embeddings_create : str -> World -> option vector * World.
Variable pinecone_index : World -> bool * World.
Variable index_upsert : list (Vector vector) -> World -> bool * World.
Variable describe_index_stats : World -> bool * World.

Local Abbreviation run_upsert :=
  (upsert_to_pinecone embeddings_create pinecone_index index_upsert
     describe_index_stats).

(** X13.  [create_embedding] makes one call to the backend, with a
    prefix of the text whose estimate is at most 8000 tokens: the whole
    text when it has at most 32003 characters, its first 32000
    otherwise. *)
Theorem create_embedding_input (t : str) (w : World)
  (tr : list (Event vector)) :
  exists r w' i,
    create_embedding embeddings_create t (w, tr)
    = (Ok r, (w', tr ++ [EmbeddingsCreate i]))
    /\ (exists n, i = firstn n t)
    /\ (N.of_nat (length i) / 4 <= 8000)%N
    /\ ((N.of_nat (length t) <= 32003)%N -> i = t)
    /\ ((32003 < N.of_nat (length t))%N -> i = firstn (N.to_nat 32000) t).
Proof.
  rewrite create_embedding_result.
  eexists. eexists. exists (embedding_input t).
  split; [reflexivity | apply embedding_input_bound].
Qed.

(** What the loop over a batch adds to the vectors. *)
Lemma embed_fold_vectors : forall batch vs0 st vs st',
  foldM (embed_step embeddings_create) batch vs0 st = (Ok vs, st') ->
  forall v, In v vs ->
    In v vs0
    \/ exists c, In c batch
         /\ generate_chunk_id c = Some (id v)
         /\ vector_metadata v = metadata c
         /\ vector_text v = firstn 1000 (text c).
Proof.
  induction batch as [|c batch IH]; intros vs0 [w tr] vs st' H v Hv;
    cbn [foldM] in H.
  - injection H as <- _. now left.
  - unfold bind at 1 in H. unfold embed_step at 1 in H.
    unfold bind at 1 in H. rewrite create_embedding_result in H.
    destruct (embeddings_create (embedding_input (text c)) w) as [[e|] w1];
      cbn [fst snd] in H.
    + destruct (generate_chunk_id c) as [vector_id|] eqn:E;
        [|discriminate H].
      unfold bind, sleep, ret in H.
      destruct (IH _ _ _ _ H v Hv) as [Hin|(c' & Hc' & Hrest)].
      * apply in_app_or in Hin. destruct Hin as [Hin|[<-|[]]];
          [now left|]. right. exists c. cbn. now repeat split; try left.
      * right. exists c'. split; [now right|assumption].
    + unfold ret in H.
      destruct (IH _ _ _ _ H v Hv) as [Hin|(c' & Hc' & Hrest)];
        [now left|].
      right. exists c'. split; [now right|assumption].
Qed.

(** X14.  Every vector collected for a batch belongs to a passage of the
    batch: it has the passage's id and metadata, and as text the first
    1000 characters of the passage's text. *)
Theorem batch_vectors_content (batch : list Chunk)
  (st st' : State vector World) (vs : list (Vector vector))
  (v : Vector vector) :
  foldM (embed_step embeddings_create) batch [] st = (Ok vs, st') ->
  In v vs ->
  length (vector_text v) <= 1000
  /\ exists c, In c batch
       /\ generate_chunk_id c = Some (id v)
       /\ vector_metadata v = metadata c
       /\ vector_text v = firstn 1000 (text c).
Proof.
  intros H Hv.
  destruct (embed_fold_vectors batch [] st vs st' H v Hv)
    as [[]|(c & Hc & Hid & Hm & Ht)].
  split; [rewrite Ht; apply firstn_le_length|].
  exists c. now repeat split.
Qed.

(** X15.  For a text whose cleaned form has fewer than [MIN_CHUNK_SIZE]
    characters the run over the passages of [chunk_text] opens the index
    and reads its statistics, embeds and stores nothing, and returns
    [True]. *)
Theorem short_text_is_processed (raw book_name : str) (w : World)
  (tr : list (Event vector)) :
  length (clean_text raw) < MIN_CHUNK_SIZE ->
  fst (pinecone_index w) = true ->
  fst (describe_index_stats (snd (pinecone_index w))) = true ->
  run_upsert (chunk_text raw book_name) (w, tr)
  = (Ok true,
     (snd (describe_index_stats (snd (pinecone_index w))),
      tr ++ [PineconeIndex; DescribeIndexStats])).
Proof.
  intros Hs H1 H2.
  destruct (chunk_text_chunked raw book_name) as [[_ E]|[[H _]|[H _]]];
    [rewrite E; clear E Hs | exfalso; clear - H Hs .. ];
    [|unfold MIN_CHUNK_SIZE, CHUNK_SIZE in *; lia ..].
  unfold upsert_to_pinecone, try_except, bind, call_bool, batches.
  cbn [length Py.range Py.range_from map foldM ret].
  destruct (pinecone_index w) as [[|] w1]; [|discriminate H1].
  cbn [snd] in *.
  destruct (describe_index_stats w1) as [[|] w2]; [|discriminate H2].
  unfold ret. cbn [snd]. now rewrite <- app_assoc.
Qed.

End PipelineMore.

Lemma batches_first (chunks : list Chunk) :
  chunks <> [] ->
  exists rest, batches chunks = firstn batch_size chunks :: rest.
Proof.
  intros H. destruct chunks as [|c l]; [contradiction|].
  unfold batches, Py.range. cbn [length Py.range_from].
  change (0 <? S (length l)) with true. cbv iota. cbn [map].
  eexists. reflexivity.
Qed.

Lemma embedding_calls_app {vector} (a b : list (Event vector)) :
  embedding_calls (a ++ b) = embedding_calls a + embedding_calls b.
Proof. unfold embedding_calls. now rewrite filter_app, length_app. Qed.

Lemma embed_events_calls {vector} : forall batch (os : list (option vector)),
  length os = length batch ->
  embedding_calls (embed_events batch os) = length batch.
Proof.
  induction batch as [|c batch IH]; intros [|o os] H; try discriminate H;
    [reflexivity|].
  injection H as H. specialize (IH os H). unfold embedding_calls in *.
  destruct o; cbn [embed_events filter length]; now rewrite IH.
Qed.

Section PipelineRun.
Context {U : UnicodeData}.
Variable vector : Type.
Variable World : Type.
Variable embeddings_create : str -> World -> option vector * World.
Variable pinecone_index : World -> bool * World.
Variable index_upsert : list (Vector vector) -> World -> bool * World.
Variable describe_index_stats : World -> bool * World.

Local Abbreviation run_upsert' :=
  (upsert_to_pinecone embeddings_create pinecone_index index_upsert
     describe_index_stats).
Local Abbreviation run_batch' :=
  (upsert_batch embeddings_create index_upsert).

(** X16.  A failure of the store on the first batch ends the run: the
    passages of the first batch (at most 100) have been sent to the
    backend, the upsert has been tried once, and [upsert_to_pinecone]
    returns [False] without embedding any later passage or reading the
    statistics. *)
Theorem upsert_failure_aborts (chunks : list Chunk) (w : World)
  (tr : list (Event vector)) :
  let b := firstn batch_size chunks in
  let w0 := snd (pinecone_index w) in
  let os := fst (outcomes embeddings_create b w0) in
  let w1 := snd (outcomes embeddings_create b w0) in
  chunks <> [] ->
  Forall has_id b ->
  fst (pinecone_index w) = true ->
  embedded b os <> [] ->
  fst (index_upsert (embedded b os) w1) = false ->
  run_upsert' chunks (w, tr)
  = (Ok false,
     (snd (index_upsert (embedded b os) w1),
      tr ++ [PineconeIndex] ++ embed_events b os
         ++ [IndexUpsert (embedded b os)])).
Proof.
  intros b w0 os w1 Hne Hid Hc Hv Hf.
  destruct (batches_first chunks Hne) as [rest E].
  unfold upsert_to_pinecone, try_except, bind at 1.
  unfold call_bool at 1.
  subst w0. destruct (pinecone_index w) as [[|] w0]; [|discriminate Hc].
  cbn [snd] in *. rewrite E. cbn [foldM]. unfold bind at 1. unfold bind at 1.
  fold b. rewrite (upsert_batch_result _ _ embeddings_create index_upsert
                     b w0 (tr ++ [PineconeIndex]) Hid).
  cbv zeta. fold os. fold w1.
  destruct (embedded b os) as [|v vs] eqn:Ev; [contradiction|].
  unfold call_bool.
  destruct (index_upsert (v :: vs) w1) as [[|] w2]; [discriminate Hf|].
  unfold ret. cbn [snd]. now rewrite <- !app_assoc.
Qed.

Hypothesis pinecone_index_ok : forall w, fst (pinecone_index w) = true.
Hypothesis index_upsert_ok : forall vs w, fst (index_upsert vs w) = true.
Hypothesis describe_index_stats_ok :
  forall w, fst (describe_index_stats w) = true.

Lemma call_bool_trace (ev : Event vector) (f : World -> bool * World) w tr :
  (forall w, fst (f w) = true) ->
  call_bool ev f (w, tr) = (Ok tt, (snd (f w), tr ++ [ev])).
Proof.
  intros H. unfold call_bool. specialize (H w).
  destruct (f w) as [[|] w']; [reflexivity|discriminate H].
Qed.

Lemma upsert_batch_calls batch w tr :
  Forall has_id batch ->
  exists w' tr',
    run_batch' batch (w, tr) = (Ok tt, (w', tr'))
    /\ embedding_calls tr' = embedding_calls tr + length batch.
Proof.
  intros Hid.
  rewrite (upsert_batch_result _ _ embeddings_create index_upsert
             batch w tr Hid).
  cbv zeta.
  pose proof (outcomes_length _ _ embeddings_create batch w) as L.
  pose proof (embed_events_calls batch _ L) as C.
  destruct (embedded batch _) as [|v vs].
  - eexists. eexists. split; [reflexivity|].
    now rewrite embedding_calls_app, C.
  - rewrite call_bool_trace by apply index_upsert_ok.
    eexists. eexists. split; [reflexivity|].
    rewrite !embedding_calls_app, C.
    change (embedding_calls [IndexUpsert (v :: vs)]) with 0. lia.
Qed.

Lemma batches_calls : forall bs w tr,
  Forall (Forall has_id) bs ->
  exists w' tr',
    foldM (fun (_ : unit) batch => run_batch' batch) bs tt (w, tr)
    = (Ok tt, (w', tr'))
    /\ embedding_calls tr' = embedding_calls tr + length (concat bs).
Proof.
  induction bs as [|b bs IH]; intros w tr H; cbn [foldM concat].
  - exists w, tr. split; [reflexivity | simpl; lia].
  - inversion H as [|? ? Hb Hbs]; subst.
    destruct (upsert_batch_calls b w tr Hb) as (w1 & tr1 & E1 & C1).
    destruct (IH w1 tr1 Hbs) as (w2 & tr2 & E2 & C2).
    unfold bind. rewrite E1, E2. exists w2, tr2.
    split; [reflexivity|]. rewrite length_app. lia.
Qed.

Lemma upsert_run_calls (chunks : list Chunk) (w : World)
  (tr : list (Event vector)) :
  Forall has_id chunks ->
  exists w' tr',
    run_upsert' chunks (w, tr) = (Ok true, (w', tr'))
    /\ embedding_calls tr' = embedding_calls tr + length chunks.
Proof.
  intros Hid. unfold upsert_to_pinecone, try_except, bind.
  rewrite call_bool_trace by apply pinecone_index_ok.
  destruct (batches_calls (batches chunks) (snd (pinecone_index w))
              (tr ++ [PineconeIndex]))
    as (w1 & tr1 & E1 & C1).
  { now apply batches_have_ids. }
  rewrite E1, call_bool_trace by apply describe_index_stats_ok.
  eexists. eexists. split; [reflexivity|].
  rewrite embedding_calls_app, C1, embedding_calls_app,
    batches_concat.
  change (embedding_calls [@PineconeIndex vector]) with 0.
  change (embedding_calls [@DescribeIndexStats vector]) with 0. lia.
Qed.

(** X17.  When the store answers, [upsert_to_pinecone] returns [True]
    and has sent every passage to the embedding backend exactly once,
    whether or not the backend embedded it. *)
Theorem run_embeds_each_passage_once (chunks : list Chunk) (w : World)
  (tr : list (Event vector)) :
  Forall has_id chunks ->
  exists w' tr',
    run_upsert' chunks (w, tr) = (Ok true, (w', tr'))
    /\ embedding_calls tr' = embedding_calls tr + length chunks.
Proof. apply upsert_run_calls. Qed.

(** X18.  For a raw text and a book name without surrogates, and a store
    that answers, chunking the text and running the upsert over the
    passages returns [True] with one embedding call for each passage,
    however many of these calls fail. *)
Theorem valid_text_is_processed (raw book_name : str) (w : World)
  (tr : list (Event vector)) :
  (forall x, In x raw -> scalar x) ->
  (forall x, In x book_name -> scalar x) ->
  exists w' tr',
    run_upsert' (chunk_text raw book_name) (w, tr) = (Ok true, (w', tr'))
    /\ embedding_calls tr'
       = embedding_calls tr + length (chunk_text raw book_name).
Proof.
  intros Hraw Hbook. apply upsert_run_calls.
  apply passages_have_ids; assumption.
Qed.

End PipelineRun.

(** ** E-mail addresses *)

Module EmailFacts.
Import Re ReFacts HeadingFacts.

(** The greedy [\S*] at the end of a pattern stops at the end of the
    text or before whitespace. *)
Lemma star_nonws_rest : forall n s r,
  star_loop (exec nonws) Some n s = Some r ->
  length s <= n ->
  ends_token r.
Proof.
  induction n as [|n IH]; intros s r H Hn; cbn [star_loop] in H.
  - injection H as <-. destruct s; [now left | simpl in Hn; lia].
  - unfold nonws in H at 1. cbn [exec] in H.
    destruct s as [|c s]; [injection H as <-; now left|].
    destruct (Py.isspace c) eqn:Hc; cbn [negb] in H.
    + injection H as <-. right. now exists c, s.
    + replace (length s <? length (c :: s)) with true in H
        by (symmetry; apply Nat.ltb_lt; simpl; lia).
      destruct (star_loop (exec nonws) Some n s) as [x|] eqn:E.
      * injection H as <-. apply (IH s x E). simpl in Hn. lia.
      * injection H as <-. right. exfalso.
        destruct n; cbn [star_loop] in E; [discriminate|].
        destruct (exec nonws s _); discriminate.
Qed.

Lemma plus_nonws_rest s r : exec (Plus nonws) s Some = Some r -> ends_token r.
Proof.
  unfold Plus. cbn [exec]. unfold nonws at 1. cbn [exec].
  destruct s as [|c s]; [discriminate|].
  destruct (negb (Py.isspace c)); [|discriminate].
  intros H. now apply (star_nonws_rest (length s) s).
Qed.

(** Where a match of the e-mail pattern ends, a token ends. *)
Lemma email_match_rest s r : match_ email_re s = Some r -> ends_token r.
Proof.
  unfold match_, email_re. cbn [exec]. intros H.
  apply exec_rest in H. destruct H as (s1 & H & _).
  cbn [exec] in H. destruct s1 as [|c s1]; [discriminate|].
  destruct (one (ch "@") c); [|discriminate].
  now apply plus_nonws_rest in H.
Qed.

Lemma match_Seq_Chr_shorter p a b s r :
  match_ (Seq (Seq (Chr p) a) b) s = Some r -> length r < length s.
Proof.
  unfold match_. cbn [exec]. destruct s as [|c s]; [discriminate|].
  destruct (p c); [|discriminate].
  intros H. apply exec_rest in H. destruct H as (s1 & H & R1).
  apply exec_rest in H. destruct H as (s2 & [= <-] & R2).
  apply rest_of_length in R1, R2. simpl. lia.
Qed.

Lemma email_match_shorter s r :
  match_ email_re s = Some r -> length r < length s.
Proof. apply match_Seq_Chr_shorter. Qed.

(** A match begins with a character that is not whitespace ... *)
Lemma email_no_match_nil : match_ email_re [] = None.
Proof. reflexivity. Qed.

Lemma email_no_match_ws w s :
  Py.isspace w = true -> match_ email_re (w :: s) = None.
Proof.
  intros H. unfold match_, email_re, Plus. cbn [exec].
  unfold nonws at 1. cbn [exec]. now rewrite H.
Qed.

(** ... and there is one wherever an [@] stands between two such
    characters. *)
Lemma email_match_triple x y t :
  Py.isspace x = false -> Py.isspace y = false ->
  match_ email_re (x :: 64%N :: y :: t) <> None.
Proof.
  intros Hx Hy. unfold match_, email_re, Plus. cbn [exec].
  unfold nonws at 1. cbn [exec]. rewrite Hx. cbn [negb].
  destruct (match_ (Star nonws) t) as [r|] eqn:E;
    [|now apply star_total in E].
  unfold nonws at 1.
  apply (star_Chr_complete _ _ _ [] (64%N :: y :: t) r); [easy|].
  cbn [exec]. change (one (ch "@") 64%N) with true. cbv iota.
  unfold nonws at 1. cbn [exec]. rewrite Hy. exact E.
Qed.

(** How the removal of the addresses of [s] begins. *)
Lemma email_sub_head fuel s :
  length s < fuel ->
  ends_token (sub_from fuel email_re [] s)
  \/ exists c s', s = c :: s' /\ match_ email_re s = None
       /\ sub_from fuel email_re [] s
          = c :: sub_from (Nat.pred fuel) email_re [] s'.
Proof.
  destruct fuel as [|fuel]; [lia|]. intros Hf. cbn [sub_from Nat.pred].
  destruct (match_ email_re s) as [r|] eqn:E.
  - left. pose proof (email_match_shorter _ _ E) as Hlt.
    pose proof (email_match_rest _ _ E) as Hr.
    apply Nat.ltb_lt in Hlt. rewrite Hlt. apply Nat.ltb_lt in Hlt.
    cbn [app]. destruct fuel as [|fuel]; [lia|]. cbn [sub_from].
    destruct Hr as [-> | (w & r' & -> & Hw)].
    + rewrite email_no_match_nil. now left.
    + rewrite (email_no_match_ws w r' Hw). right. now eexists _, _.
  - destruct s as [|c s']; [left; now left|].
    right. now exists c, s'.
Qed.

Lemma no_email_nil : no_email [].
Proof. intros [|a l] x y r H; discriminate. Qed.

Lemma no_email_cons c t :
  no_email t ->
  (forall y r, t = 64%N :: y :: r ->
     Py.isspace c = true \/ Py.isspace y = true) ->
  no_email (c :: t).
Proof.
  intros Ht Hc [|a l] x y r H.
  - injection H as -> ->. now apply (Hc y r).
  - injection H as _ ->. now apply (Ht l x y r).
Qed.

Lemma ends_token_not_at t : ends_token (64%N :: t) -> False.
Proof.
  intros [H | (w & r' & [= <- _] & H)]; discriminate.
Qed.

(** What is left after the removal has no address. *)
Lemma email_sub_from_clean : forall fuel s,
  length s < fuel -> no_email (sub_from fuel email_re [] s).
Proof.
  induction fuel as [|fuel IH]; intros s Hf; [lia|].
  cbn [sub_from].
  destruct (match_ email_re s) as [r|] eqn:E.
  - pose proof (email_match_shorter _ _ E) as Hlt.
    apply Nat.ltb_lt in Hlt. rewrite Hlt. apply Nat.ltb_lt in Hlt.
    cbn [app]. apply IH. lia.
  - destruct s as [|c s1]; [apply no_email_nil|].
    cbn [length] in Hf.
    apply no_email_cons; [apply IH; lia|]. intros y r H1.
    destruct (email_sub_head fuel s1 ltac:(lia))
      as [T | (c1 & s2 & -> & _ & H2)].
    { rewrite H1 in T. now apply ends_token_not_at in T. }
    rewrite H1 in H2. injection H2 as <- H2. cbn [length] in Hf.
    destruct (email_sub_head (Nat.pred fuel) s2 ltac:(lia))
      as [T | (c2 & s3 & -> & _ & H3)].
    { rewrite <- H2 in T.
      destruct T as [T | (w & r' & [= <- _] & Hw)];
        [discriminate | now right]. }
    rewrite <- H2 in H3. injection H3 as <- _.
    destruct (Py.isspace c) eqn:Hc; [now left|].
    destruct (Py.isspace y) eqn:Hy; [now right|].
    exfalso. now apply (email_match_triple c y s3 Hc Hy).
Qed.

Lemma email_sub_clean s : no_email (sub email_re [] s).
Proof. apply email_sub_from_clean. lia. Qed.

(** Replacing the characters of a class by one character is a map. *)
Lemma sub_from_class_map p d : forall fuel s,
  length s < fuel ->
  sub_from fuel (Chr p) [d] s = map (fun c => if p c then d else c) s.
Proof.
  induction fuel as [|fuel IH]; intros s Hf; [lia|].
  cbn [sub_from]. unfold match_. cbn [exec].
  destruct s as [|c s]; [reflexivity|]. cbn [length] in Hf.
  cbn [map]. destruct (p c).
  - replace (length s <? length (c :: s)) with true
      by (symmetry; apply Nat.ltb_lt; simpl; lia).
    cbn [app]. f_equal. apply IH. lia.
  - f_equal. apply IH. lia.
Qed.

Lemma sub_class_map p d s :
  sub (Chr p) [d] s = map (fun c => if p c then d else c) s.
Proof. apply sub_from_class_map. lia. Qed.

(** A map that moves no character into or out of whitespace and
    creates no [@] creates no address. *)
Lemma no_email_map (f : char -> char) s :
  (forall c, Py.isspace (f c) = Py.isspace c) ->
  (forall c, f c = 64%N -> c = 64%N) ->
  no_email s -> no_email (map f s).
Proof.
  intros Hsp Hat Hs l x y r H.
  apply map_eq_app in H. destruct H as (l0 & t0 & -> & _ & H).
  apply map_eq_cons in H. destruct H as (x0 & t1 & -> & <- & H).
  apply map_eq_cons in H. destruct H as (a0 & t2 & -> & Ha & H).
  apply map_eq_cons in H. destruct H as (y0 & t3 & -> & <- & _).
  apply Hat in Ha. subst a0. rewrite !Hsp. now apply (Hs l0 x0 y0 t3).
Qed.

Lemma no_email_class p d s :
  Py.isspace d = false -> d <> 64%N ->
  (forall c, p c = true -> Py.isspace c = false) ->
  no_email s -> no_email (sub (Chr p) [d] s).
Proof.
  intros Hd Hne Hp Hs. rewrite sub_class_map. apply no_email_map.
  - intros c. destruct (p c) eqn:E; [|reflexivity].
    now rewrite Hd, (Hp c E).
  - intros c. destruct (p c); [contradiction|easy].
  - assumption.
Qed.

(** A piece of a text without address has none. *)
Lemma no_email_segment a t b : no_email (a ++ t ++ b) -> no_email t.
Proof.
  intros H l x y r ->. apply (H (a ++ l) x y (r ++ b)).
  now rewrite <- !app_assoc.
Qed.

Lemma lstrip_suffix s : exists a, s = a ++ Py.lstrip s.
Proof.
  induction s as [|c s (a & IH)]; [now exists []|]. cbn [Py.lstrip].
  destruct (Py.isspace c); [|now exists []].
  exists (c :: a). cbn [app]. now f_equal.
Qed.

Lemma strip_segment s : exists a b, s = a ++ Py.strip s ++ b.
Proof.
  destruct (lstrip_suffix s) as (a & Ha).
  destruct (lstrip_suffix (rev (Py.lstrip s))) as (b & Hb).
  exists a, (rev b). unfold Py.strip, Py.rstrip.
  rewrite <- rev_app_distr, <- Hb, rev_involutive. exact Ha.
Qed.

Lemma no_email_strip s : no_email s -> no_email (Py.strip s).
Proof.
  intros H. destruct (strip_segment s) as (a & b & E).
  rewrite E in H. now apply no_email_segment in H.
Qed.

End EmailFacts.

Section CleanTextEmail.
Context {U : UnicodeData}.
Import Re EmailFacts.

(** X19. [clean_text] leaves no e-mail address: in its result no [@]
    stands between two characters that are not whitespace, so that the
    pattern [\S+@\S+] matches nowhere in it. *)
Theorem clean_text_no_email (raw : str) : no_email (clean_text raw).
Proof.
  rewrite clean_text_steps. apply no_email_strip.
  do 3 (apply no_email_class; [reflexivity | discriminate | |];
        [intros c H; unfold cls, one in H; cbn [existsb] in H;
         repeat (apply orb_true_iff in H; destruct H as [H|H]);
         try discriminate H; apply N.eqb_eq in H; now subst c|]).
  apply email_sub_clean.
Qed.

End CleanTextEmail.

(** ** The further theorems at concrete inputs *)

(** Witness of X1. *)
Lemma clean_text_whitespace_witness :
  clean_text (U := ascii_data) quoted_text = lit "it's here"
  /\ Py.isspace 105%N = false /\ Py.isspace 101%N = false.
Proof.
  split; [vm_compute; reflexivity|]. split.
  - apply (proj1 (proj2 (clean_text_whitespace (U := ascii_data) quoted_text))
             105%N (lit "t's here")).
    vm_compute. reflexivity.
  - apply (proj2 (proj2 (clean_text_whitespace (U := ascii_data) quoted_text))
             (lit "it's her") 101%N).
    vm_compute. reflexivity.
Defined.

(** Witness of X2. *)
Lemma clean_text_characters_witness :
  (In 39%N quoted_text \/ written 39%N)
  /\ 39%N <> NL /\ 39%N <> 96%N /\ 39%N <> 8212%N /\ 39%N <> 8211%N.
Proof.
  apply (clean_text_characters (U := ascii_data) quoted_text 39%N).
  vm_compute. auto.
Defined.

(** Witness of X4. *)
Lemma chunk_text_short_text_witness :
  chunk_text (U := ascii_data) tiny_text book0 = []
  /\ chunk_text (U := ascii_data) short_text book0
     = [whole_passage book0 (clean_text (U := ascii_data) short_text)].
Proof.
  split.
  - apply (proj1 (chunk_text_short_text (U := ascii_data) tiny_text book0)).
    apply Nat.ltb_lt. vm_compute. reflexivity.
  - apply (proj2 (chunk_text_short_text (U := ascii_data) short_text book0)).
    + apply Nat.leb_le. vm_compute. reflexivity.
    + apply Nat.leb_le. vm_compute. reflexivity.
Defined.

(** Witness of X5. *)
Lemma chunk_text_long_text_witness :
  chunk_text (U := ascii_data) long_text book0
  = map (stride_passage book0 (clean_text (U := ascii_data) long_text))
      (seq 0 (stride_count (length (clean_text (U := ascii_data) long_text)))).
Proof.
  apply (chunk_text_long_text (U := ascii_data) long_text book0).
  apply Nat.ltb_lt. vm_compute. reflexivity.
Defined.

(** Witness of X6. *)
Lemma chunk_text_passage_bounds_witness :
  let c := nth 1 (chunk_text (U := ascii_data) long_text book0) dummy_chunk in
  book (metadata c) = book0
  /\ MIN_CHUNK_SIZE <= length (text c) <= 2 * CHUNK_SIZE
  /\ embedding_input (text c) = text c.
Proof.
  apply (chunk_text_passage_bounds (U := ascii_data) long_text book0).
  vm_compute. right. left. reflexivity.
Defined.

(** Witness of X7. *)
Lemma stride_chunks_overlap_witness :
  length (text (stride_passage book0 long_text 0)) = CHUNK_SIZE
  /\ skipn (CHUNK_SIZE - CHUNK_OVERLAP) (text (stride_passage book0 long_text 0))
     = firstn CHUNK_OVERLAP (text (stride_passage book0 long_text 1)).
Proof.
  apply (stride_chunks_overlap book0 long_text 0); vm_compute; reflexivity.
Defined.

(** Witness of X8. *)
Lemma stride_chunks_cover_witness :
  exists k a,
    nth_error (stride_chunks book0 long_text) k = Some a
    /\ k * (CHUNK_SIZE - CHUNK_OVERLAP) <= 2400
    /\ nth_error (text a) (2400 - k * (CHUNK_SIZE - CHUNK_OVERLAP))
       = nth_error long_text 2400
    /\ nth_error long_text 2400 <> None.
Proof.
  apply (stride_chunks_cover book0 long_text 2400);
    apply Nat.leb_le; vm_compute; reflexivity.
Defined.

(** Witness of X10. *)
Lemma generate_chunk_id_format_witness :
  length passage_a_id = 32 /\ forall x, In x passage_a_id -> hex_char x.
Proof.
  apply (generate_chunk_id_format passage_a). vm_compute. reflexivity.
Defined.

(** Witness of X11. *)
Lemma generate_chunk_id_defined_witness :
  generate_chunk_id passage_a <> None.
Proof.
  apply (proj2 (generate_chunk_id_defined passage_a)).
  apply scalar_all. vm_compute. reflexivity.
Defined.

(** Witness of X12. *)
Lemma chunk_text_passages_have_ids_witness :
  Forall has_id (chunk_text (U := ascii_data) long_text book0).
Proof.
  apply (chunk_text_passages_have_ids (U := ascii_data) long_text book0);
    apply scalar_all; vm_compute; reflexivity.
Defined.

(** Witness of X14. *)
Lemma batch_vectors_content_witness :
  let v := nth 1 three_embedded dummy_vector in
  length (vector_text v) <= 1000
  /\ exists c, In c three_passages
       /\ generate_chunk_id c = Some (id v)
       /\ vector_metadata v = metadata c
       /\ vector_text v = firstn 1000 (text c).
Proof.
  apply (batch_vectors_content nat nat flaky_backend three_passages (0, [])
           (snd (foldM (embed_step flaky_backend) three_passages [] (0, [])))
           three_embedded).
  - vm_compute. reflexivity.
  - vm_compute. right. left. reflexivity.
Defined.

(** Witness of X15. *)
Lemma short_text_is_processed_witness :
  upsert_to_pinecone flaky_backend store_ok upsert_ok store_ok
    (chunk_text (U := ascii_data) tiny_text book0) (0, [])
  = (Ok true, (0, [PineconeIndex; DescribeIndexStats])).
Proof.
  apply (short_text_is_processed (U := ascii_data) nat nat flaky_backend
           store_ok upsert_ok store_ok tiny_text book0 0 []).
  - apply Nat.ltb_lt. vm_compute. reflexivity.
  - reflexivity.
  - reflexivity.
Defined.

(** Witness of X16. *)
Lemma upsert_failure_aborts_witness :
  exists st',
    upsert_to_pinecone flaky_backend store_ok upsert_fail store_ok
      three_passages (0, [])
    = (Ok false, st').
Proof.
  eexists.
  apply (upsert_failure_aborts nat nat flaky_backend store_ok upsert_fail
           store_ok three_passages 0 []).
  - discriminate.
  - repeat constructor; vm_compute; discriminate.
  - reflexivity.
  - vm_compute. discriminate.
  - reflexivity.
Defined.

(** Witness of X17. *)
Lemma run_embeds_each_passage_once_witness :
  exists w' tr',
    upsert_to_pinecone flaky_backend store_ok upsert_ok store_ok
      three_passages (0, [])
    = (Ok true, (w', tr'))
    /\ embedding_calls tr' = embedding_calls (vector := nat) [] + length three_passages.
Proof.
  apply (run_embeds_each_passage_once nat nat flaky_backend store_ok
           upsert_ok store_ok
           (fun _ => eq_refl) (fun _ _ => eq_refl) (fun _ => eq_refl)
           three_passages 0 []).
  repeat constructor; vm_compute; discriminate.
Defined.

(** Witness of X18. *)
Lemma valid_text_is_processed_witness :
  exists w' tr',
    upsert_to_pinecone flaky_backend store_ok upsert_ok store_ok
      (chunk_text (U := ascii_data) long_text book0) (0, [])
    = (Ok true, (w', tr'))
    /\ embedding_calls tr'
       = embedding_calls (vector := nat) []
         + length (chunk_text (U := ascii_data) long_text book0).
Proof.
  apply (valid_text_is_processed (U := ascii_data) nat nat flaky_backend
           store_ok upsert_ok store_ok
           (fun _ => eq_refl) (fun _ _ => eq_refl) (fun _ => eq_refl)
           long_text book0 0 []);
    apply scalar_all; vm_compute; reflexivity.
Defined.
